(** * remoteRotator: the Hub switchboard and the rotator Proxy

    A shallow embedding of [hub/hub.go] and of the proxy package of the
    remoteRotator server, with the properties of its specification.

    Go's [int] is modelled as [Z]: the code only stores, compares and prints
    these integers, so their width plays no role.  Pointers to clients are
    addresses ([positive]); the two client registries
    [map[*TCPClient]bool] and [map[*WsClient]bool] are [gmap]s from addresses
    to [bool].  Everything the code does to the outside world (locking, map
    accesses, socket writes, closes, spawned goroutines) is appended to a
    trace, so that what was done, and in which order, can be stated. *)

From Stdlib Require Import ZArith Ascii String DecimalString.
From stdpp Require Import gmap strings list fin_maps.

Local Open Scope Z_scope.

(* ===================================================================== *)
(** ** Package rotator: the wire model shared by Hub and Proxy           *)
(* ===================================================================== *)

Module rotator.

(** The two [rotator.Event] constants the proxy reports to its handler. *)
Inductive Event := Azimuth | Elevation.

(** [rotator.Status], with the fields the proxy fills in [Status()]. *)
Module Status.
Record t := mk {
  Name : string;
  Azimuth : Z;
  AzPreset : Z;
  AzimuthOverlap : bool;
  Elevation : Z;
  ElPreset : Z;
}.
End Status.

(** [rotator.Info], with the fields the proxy fills in [Info()]. *)
Module Info.
Record t := mk {
  Name : string;
  HasAzimuth : bool;
  HasElevation : bool;
  AzimuthMin : Z;
  AzimuthMax : Z;
  AzimuthStop : Z;
  AzimuthOverlap : bool;
  ElevationMin : Z;
  ElevationMax : Z;
  Azimuth : Z;
  AzPreset : Z;
  Elevation : Z;
  ElPreset : Z;
}.
End Info.

(** [rotator.Request], with the fields the proxy commands set.  A field
    that a struct literal leaves out has Go's zero value. *)
Module Request.
Record t := mk {
  HasAzimuth : bool;
  HasElevation : bool;
  Azimuth : Z;
  Elevation : Z;
  StopAzimuth : bool;
  StopElevation : bool;
  Stop : bool;
}.

Definition zero : t := mk false false 0 0 false false false.
End Request.

End rotator.

(* ===================================================================== *)
(** ** Package fmt: the one verb the hub uses                            *)
(* ===================================================================== *)

Module fmt.

Fixpoint zeros (n : nat) : string :=
  match n with
  | O => EmptyString
  | S n' => String "0"%char (zeros n')
  end.

(** [%.<prec>d]: the decimal digits of the absolute value, padded on the
    left with zeros up to [prec] digits, behind a minus sign when the
    number is negative. *)
Definition d (prec : nat) (n : Z) : string :=
  let digits := NilZero.string_of_uint (N.to_uint (Z.abs_N n)) in
  let padded := zeros (prec - String.length digits) +:+ digits in
  if n <? 0 then String "-"%char padded else padded.

Definition CRLF : string := String "013"%char (String "010"%char EmptyString).

End fmt.

(* ===================================================================== *)
(** ** Package hub                                                       *)
(* ===================================================================== *)

Module hub.

(** [hub.Event], as the proxy's receive loop reads it. *)
Module Event.
Record t := mk {
  Name : string;
  Status : rotator.Status.t;
}.
End Event.

Inductive transport := TCP | WS.

(** The address of a [TCPClient] or of a [WsClient]. *)
Definition ptr := positive.

Inductive logline :=
| LogConnected (t : transport) (c : ptr)
| LogDisconnected (t : transport) (c : ptr)
| LogWriteError (t : transport) (c : ptr)
| LogDisconnecting (t : transport) (c : ptr)
| LogListenerError
| LogListening
| LogAcceptError
| LogUpgradeError
| LogServeError
| LogMarshalError.

(** What an operation of the hub does, step by step. *)
Inductive action :=
| ALock
| AUnlock
| AMapLookup (t : transport) (c : ptr)
| AMapDelete (t : transport) (c : ptr)
| AMapStore (t : transport) (c : ptr)
| AMapRange (t : transport)
| AWrite (t : transport) (c : ptr) (data : string) (failed : bool)
| AClose (t : transport) (c : ptr)
| AGoListen (t : transport) (c : ptr)
| ANetListen (ok : bool)
| AListenerClose
| AAccept (ok : bool)
| ACloseErrCh
| ALog (l : logline).

Record Hub := mkHub {
  tcpClients : gmap ptr bool;
  wsClients : gmap ptr bool;
  trace : list action;
}.


Definition clients (t : transport) (h : Hub) : gmap ptr bool :=
  match t with
  | TCP => tcpClients h
  | WS => wsClients h
  end.

Definition set_clients (t : transport) (m : gmap ptr bool) (h : Hub) : Hub :=
  match t with
  | TCP => mkHub m (wsClients h) (trace h)
  | WS => mkHub (tcpClients h) m (trace h)
  end.

(** What the hub cannot decide itself: the order in which [range] yields
    the keys of a map (Go leaves it unspecified), whether a write to a
    client's socket fails, and the bytes [json.Marshal] produces.  The
    first two may depend on everything that happened before. *)
Record runtime := mkRuntime {
  range_order : list action → list ptr → list ptr;
  write_fails : list action → transport → ptr → string → bool;
  json_Marshal : rotator.Status.t → option string;
}.

(** [range] yields every key once. *)
Definition fair (rt : runtime) : Prop :=
  ∀ tr l, range_order rt tr l ≡ₚ l.

(** *** State passing *)

Definition M (A : Type) : Type := Hub → A * Hub.

Definition ret {A} (a : A) : M A := fun h => (a, h).

Definition bind {A B} (m : M A) (k : A → M B) : M B :=
  fun h => let (a, h') := m h in k a h'.

Definition exec {A} (m : M A) (h : Hub) : Hub := (m h).2.

Declare Scope hub_scope.
Delimit Scope hub_scope with hub.
Notation "'let*' x ':=' m 'in' k" := (bind m (fun x => k))
  (at level 10, x name, m at level 100, k at level 200) : hub_scope.
Notation "m '>>' k" := (bind m (fun _ => k))
  (at level 90, right associativity) : hub_scope.
Local Open Scope hub_scope.

Definition emit (a : action) : M unit :=
  fun h => (tt, mkHub (tcpClients h) (wsClients h) (trace h ++ [a])).

(** [hub.Lock()], [hub.Unlock()] of the embedded [sync.Mutex]. *)
Definition Lock : M unit := emit ALock.
Definition Unlock : M unit := emit AUnlock.

(** [defer d] in front of [body]: [d] runs when [body] has returned. *)
Definition defer {A} (d : M unit) (body : M A) : M A :=
  let* x := body in d >> ret x.

(** [_, ok := m[c]] *)
Definition map_lookup (t : transport) (c : ptr) : M (option bool) :=
  fun h => (clients t h !! c, exec (emit (AMapLookup t c)) h).

(** [delete(m, c)] *)
Definition map_delete (t : transport) (c : ptr) : M unit :=
  fun h => (tt, exec (emit (AMapDelete t c)) (set_clients t (delete c (clients t h)) h)).

(** [m[c] = true] *)
Definition map_store (t : transport) (c : ptr) : M unit :=
  fun h => (tt, exec (emit (AMapStore t c)) (set_clients t (<[c:=true]> (clients t h)) h)).

Definition keys (m : gmap ptr bool) : list ptr := (map_to_list m).*1.

(** [for c := range m]: the keys, in the order the runtime picks. *)
Definition map_range (rt : runtime) (t : transport) : M (list ptr) :=
  fun h => (range_order rt (trace h) (keys (clients t h)), exec (emit (AMapRange t)) h).

(** [c.write(data)] and [c.WriteMessage(websocket.BinaryMessage, msg)]:
    [true] stands for a non-nil error. *)
Definition write (rt : runtime) (t : transport) (c : ptr) (data : string) : M bool :=
  fun h => let failed := write_fails rt (trace h) t c data in
           (failed, exec (emit (AWrite t c data failed)) h).

Definition close (t : transport) (c : ptr) : M unit := emit (AClose t c).
Definition go_listen (t : transport) (c : ptr) : M unit := emit (AGoListen t c).
Definition log (l : logline) : M unit := emit (ALog l).

(** *** Client registration *)

Definition AddTCPClient (client : ptr) : M unit :=
  Lock >>
  defer Unlock
    (let* alreadyInMap := map_lookup TCP client in
     (match alreadyInMap with
      | Some _ => map_delete TCP client
      | None => ret tt
      end) >>
     map_store TCP client >>
     log (LogConnected TCP client) >>
     go_listen TCP client).

Definition RemoveTCPClient (c : ptr) : M unit :=
  Lock >>
  defer Unlock
    (let* ok := map_lookup TCP c in
     (match ok with
      | Some _ => map_delete TCP c
      | None => ret tt
      end) >>
     close TCP c >>
     log (LogDisconnected TCP c)).

(** No [hub.Lock()] here: the function starts with the map lookup. *)
Definition AddWsClient (client : ptr) : M unit :=
  let* alreadyInMap := map_lookup WS client in
  (match alreadyInMap with
   | Some _ => map_delete WS client
   | None => ret tt
   end) >>
  map_store WS client >>
  log (LogConnected WS client) >>
  go_listen WS client.

Definition RemoveWsClient (c : ptr) : M unit :=
  Lock >>
  defer Unlock
    (let* ok := map_lookup WS c in
     (match ok with
      | Some _ => map_delete WS c
      | None => ret tt
      end) >>
     close WS c >>
     log (LogDisconnected WS c)).

(** [handleClose]: the clients arriving on the two close channels. *)
Fixpoint handleClose (arrivals : list (transport * ptr)) : M unit :=
  match arrivals with
  | [] => ret tt
  | (TCP, c) :: rest => RemoveTCPClient c >> handleClose rest
  | (WS, c) :: rest => RemoveWsClient c >> handleClose rest
  end.

(** *** Broadcast *)

(** The line pushed to TCP clients: [fmt.Sprintf("+0%.3d+0%.3d\r\n", ...)]. *)
Definition tcp_data (s : rotator.Status.t) : string :=
  "+0" +:+ fmt.d 3 (rotator.Status.Azimuth s) +:+
  "+0" +:+ fmt.d 3 (rotator.Status.Elevation s) +:+ fmt.CRLF.

(** The body shared by the two [range] loops: write; on error log twice,
    close the client and delete it from the map; go on with the next one.
    The loop deletes no key but the one it is at, so every key of the
    order fixed at the start is reached. *)
Fixpoint send_all (rt : runtime) (t : transport) (data : string) (cs : list ptr) : M unit :=
  match cs with
  | [] => ret tt
  | c :: rest =>
      let* err := write rt t c data in
      (if err : bool then
         log (LogWriteError t c) >>
         log (LogDisconnecting t c) >>
         close t c >>
         map_delete t c
       else ret tt) >>
      send_all rt t data rest
  end.

Definition BroadcastToTCPClients (rt : runtime) (s : rotator.Status.t) : M unit :=
  Lock >>
  defer Unlock
    (let* cs := map_range rt TCP in
     send_all rt TCP (tcp_data s) cs).

(** Returns [true] for a non-nil error. *)
Definition BroadcastToWsClients (rt : runtime) (s : rotator.Status.t) : M bool :=
  Lock >>
  defer Unlock
    (match json_Marshal rt s with
     | None => ret true
     | Some msg =>
         let* cs := map_range rt WS in
         send_all rt WS msg cs >>
         ret false
     end).

Definition Broadcast (rt : runtime) (s : rotator.Status.t) : M unit :=
  BroadcastToTCPClients rt s >>
  let* err := BroadcastToWsClients rt s in
  if err : bool then log LogMarshalError else ret tt.

Fixpoint broadcasts (rt : runtime) (ss : list rotator.Status.t) : M unit :=
  match ss with
  | [] => ret tt
  | s :: rest => Broadcast rt s >> broadcasts rt rest
  end.

(** *** Listeners *)

Inductive exit := Returned | Panicked | Serving.

(** A run-time panic inside a function: the calls deferred so far run, and
    the panic goes on into the caller. *)
Definition panic (deferred : M unit) : M exit :=
  deferred >> ret Panicked.

(** The accept loop, for the connections that arrive: each one comes with
    the address of the [TCPClient] allocated for it, and with whether
    [l.Accept()] succeeded.  An accept error is printed and the client is
    registered all the same. *)
Fixpoint accept_loop (arrivals : list (bool * ptr)) : M unit :=
  match arrivals with
  | [] => ret tt
  | (ok, c) :: rest =>
      emit (AAccept ok) >>
      (if ok : bool then ret tt else log LogAcceptError) >>
      AddTCPClient c >>
      accept_loop rest
  end.

(** [ListenTCP].  [listen_ok] tells whether [net.Listen] succeeded.  The
    error is logged and execution goes on: with [l] nil, evaluating the
    method [l.Close] for the second [defer] panics, and the first
    deferred call, [close(tcpError)], runs while the panic unwinds.  With a
    listener the loop never ends ([Serving]) and the deferred calls never
    run. *)
Definition ListenTCP (listen_ok : bool) (arrivals : list (bool * ptr)) : M exit :=
  emit (ANetListen listen_ok) >>
  (if listen_ok then ret tt else log LogListenerError) >>
  if listen_ok then
    log LogListening >>
    accept_loop arrivals >>
    ret Serving
  else
    panic (emit ACloseErrCh).

(** [wsHandler]: [upgraded] is the client of a successful upgrade. *)
Definition wsHandler (upgraded : option ptr) : M unit :=
  match upgraded with
  | None => log LogUpgradeError
  | Some c => AddWsClient c
  end.

Fixpoint serve (requests : list (option ptr)) : M unit :=
  match requests with
  | [] => ret tt
  | r :: rest => wsHandler r >> serve rest
  end.

(** [ListenWS]: [http.ListenAndServe] serves the requests that arrive and
    returns with an error (at once when it cannot bind); the error is
    logged, the function returns and the deferred [close(wsError)] runs. *)
Definition ListenWS (requests : list (option ptr)) : M exit :=
  defer (emit ACloseErrCh)
    (log LogListening >>
     serve requests >>
     log LogServeError >>
     ret Returned).

(** *** Reading a trace *)

#[global] Instance transport_eq_dec : EqDecision transport.
Proof. solve_decision. Defined.

(** What happened between two states of the same run. *)
Definition since (h h' : Hub) : list action :=
  drop (length (trace h)) (trace h').

(** The clients written to, in order. *)
Definition written (t : transport) (tr : list action) : list ptr :=
  omap (fun a => match a with
                 | AWrite t' c _ _ => if decide (t' = t) then Some c else None
                 | _ => None
                 end) tr.

(** The clients a write to which failed. *)
Definition failed (t : transport) (tr : list action) : list ptr :=
  omap (fun a => match a with
                 | AWrite t' c _ true => if decide (t' = t) then Some c else None
                 | _ => None
                 end) tr.

(** The clients closed. *)
Definition closed (t : transport) (tr : list action) : list ptr :=
  omap (fun a => match a with
                 | AClose t' c => if decide (t' = t) then Some c else None
                 | _ => None
                 end) tr.

(** What a client received: the data of the writes that succeeded. *)
Definition received (t : transport) (c : ptr) (tr : list action) : list string :=
  omap (fun a => match a with
                 | AWrite t' c' data false =>
                     if decide (t' = t ∧ c' = c) then Some data else None
                 | _ => None
                 end) tr.

(** The lock discipline of a trace: the mutex is taken only when free and
    released only when held, every access to a client map happens while it
    is held, and it is free at the end. *)
Fixpoint serialized_from (held : bool) (tr : list action) : bool :=
  match tr with
  | [] => negb held
  | ALock :: tr' => negb held && serialized_from true tr'
  | AUnlock :: tr' => held && serialized_from false tr'
  | AMapLookup _ _ :: tr' | AMapDelete _ _ :: tr'
  | AMapStore _ _ :: tr' | AMapRange _ :: tr' => held && serialized_from held tr'
  | _ :: tr' => serialized_from held tr'
  end.

Definition serialized (tr : list action) : bool := serialized_from false tr.

End hub.


(* ===================================================================== *)
(** ** Package proxy                                                     *)
(* ===================================================================== *)

Module proxy.

Import rotator.

Inductive error :=
| ErrGet
| ErrDecode
| ErrCount (got : nat)
| ErrDial
| ErrWrite.

Inductive panic :=
| IndexOutOfRange (index len : nat)
| NilDereference.

(** How a Go function that returns an error ends: with a nil error, with an
    error, or in a run-time panic that unwinds into its caller. *)
Inductive result (A : Type) :=
| Ok (a : A)
| Err (e : error)
| Panic (p : panic).
Arguments Ok {A} a.
Arguments Err {A} e.
Arguments Panic {A} p.

(** The struct [Proxy].  [conn] is the handle of the websocket connection
    (nil before the dial), [eventHandler] the registered callback (nil when
    none was given). *)
Record Proxy := mk {
  host : string;
  port : Z;
  conn : option nat;
  eventHandler : option nat;
  name : string;
  azimuthMin : Z;
  azimuthMax : Z;
  azimuthStop : Z;
  azimuthOverlap : bool;
  elevationMin : Z;
  elevationMax : Z;
  hasAzimuth : bool;
  hasElevation : bool;
  azimuth : Z;
  azPreset : Z;
  elevation : Z;
  elPreset : Z;
}.

(** Assignments to single fields. *)
Definition set_host (v : string) (r : Proxy) : Proxy :=
  mk v (port r) (conn r) (eventHandler r) (name r) (azimuthMin r) (azimuthMax r)
     (azimuthStop r) (azimuthOverlap r) (elevationMin r) (elevationMax r)
     (hasAzimuth r) (hasElevation r) (azimuth r) (azPreset r) (elevation r) (elPreset r).

Definition set_port (v : Z) (r : Proxy) : Proxy :=
  mk (host r) v (conn r) (eventHandler r) (name r) (azimuthMin r) (azimuthMax r)
     (azimuthStop r) (azimuthOverlap r) (elevationMin r) (elevationMax r)
     (hasAzimuth r) (hasElevation r) (azimuth r) (azPreset r) (elevation r) (elPreset r).

Definition set_conn (v : option nat) (r : Proxy) : Proxy :=
  mk (host r) (port r) v (eventHandler r) (name r) (azimuthMin r) (azimuthMax r)
     (azimuthStop r) (azimuthOverlap r) (elevationMin r) (elevationMax r)
     (hasAzimuth r) (hasElevation r) (azimuth r) (azPreset r) (elevation r) (elPreset r).

Definition set_eventHandler (v : option nat) (r : Proxy) : Proxy :=
  mk (host r) (port r) (conn r) v (name r) (azimuthMin r) (azimuthMax r)
     (azimuthStop r) (azimuthOverlap r) (elevationMin r) (elevationMax r)
     (hasAzimuth r) (hasElevation r) (azimuth r) (azPreset r) (elevation r) (elPreset r).

Definition set_azimuth (v : Z) (r : Proxy) : Proxy :=
  mk (host r) (port r) (conn r) (eventHandler r) (name r) (azimuthMin r) (azimuthMax r)
     (azimuthStop r) (azimuthOverlap r) (elevationMin r) (elevationMax r)
     (hasAzimuth r) (hasElevation r) v (azPreset r) (elevation r) (elPreset r).

Definition set_azPreset (v : Z) (r : Proxy) : Proxy :=
  mk (host r) (port r) (conn r) (eventHandler r) (name r) (azimuthMin r) (azimuthMax r)
     (azimuthStop r) (azimuthOverlap r) (elevationMin r) (elevationMax r)
     (hasAzimuth r) (hasElevation r) (azimuth r) v (elevation r) (elPreset r).

Definition set_elevation (v : Z) (r : Proxy) : Proxy :=
  mk (host r) (port r) (conn r) (eventHandler r) (name r) (azimuthMin r) (azimuthMax r)
     (azimuthStop r) (azimuthOverlap r) (elevationMin r) (elevationMax r)
     (hasAzimuth r) (hasElevation r) (azimuth r) (azPreset r) v (elPreset r).

Definition set_elPreset (v : Z) (r : Proxy) : Proxy :=
  mk (host r) (port r) (conn r) (eventHandler r) (name r) (azimuthMin r) (azimuthMax r)
     (azimuthStop r) (azimuthOverlap r) (elevationMin r) (elevationMax r)
     (hasAzimuth r) (hasElevation r) (azimuth r) (azPreset r) (elevation r) v.

(** The functional options of [New]. *)
Definition Host (h : string) : Proxy → Proxy := set_host h.
Definition Port (p : Z) : Proxy → Proxy := set_port p.
Definition EventHandler (h : option nat) : Proxy → Proxy := set_eventHandler h.

(** *** The remote side *)

(** What [GET http://host:port/info] followed by the JSON decoding into
    [[]rotator.Info] yields. *)
Inductive info_response :=
| GetFailed
| DecodeFailed
| Decoded (infos : list Info.t).

Inductive payload :=
| JRequest (req : Request.t)
| JStatus (s : Status.t).

(** What the proxy does on the network. *)
Inductive net_action :=
| HttpGet (h : string) (p : Z)
| WsDial (h : string) (p : Z)
| GoReceive (c : nat)
| WriteJSON (c : nat) (v : payload) (failed : bool).

Record network := mkNetwork {
  get_info : string → Z → info_response;
  ws_dial : string → Z → option nat;
  write_json_fails : list net_action → nat → payload → bool;
}.

(** *** Construction *)

(** [getInfo]: the only length check is [len(infos) > 1]; the assignments
    that follow index [infos[0]].  The twelve fields assigned are those of
    lines 393 to 404; [azimuthOverlap] is not among them. *)
Definition getInfo (net : network) (r : Proxy) : result Proxy :=
  match get_info net (host r) (port r) with
  | GetFailed => Err ErrGet
  | DecodeFailed => Err ErrDecode
  | Decoded infos =>
      if (1 <? length infos)%nat then Err (ErrCount (length infos))
      else
        match infos !! 0%nat with
        | None => Panic (IndexOutOfRange 0 (length infos))
        | Some i =>
            Ok (mk (host r) (port r) (conn r) (eventHandler r)
                   (Info.Name i)
                   (Info.AzimuthMin i) (Info.AzimuthMax i) (Info.AzimuthStop i)
                   (azimuthOverlap r)
                   (Info.ElevationMin i) (Info.ElevationMax i)
                   (Info.HasAzimuth i) (Info.HasElevation i)
                   (Info.Azimuth i) (Info.AzPreset i)
                   (Info.Elevation i) (Info.ElPreset i))
        end
  end.

(** [&Proxy{name: "rotatorProxy"}] *)
Definition fresh : Proxy :=
  mk EmptyString 0 None None "rotatorProxy" 0 0 0 false 0 0 false false 0 0 0 0.

(** [New]: apply the options, fetch the info, dial, start the receive loop.
    Returned with the result is what was done on the network. *)
Definition New (net : network) (opts : list (Proxy → Proxy))
  : result Proxy * list net_action :=
  let r := foldl (fun r opt => opt r) fresh opts in
  let get := HttpGet (host r) (port r) in
  match getInfo net r with
  | Err e => (Err e, [get])
  | Panic p => (Panic p, [get])
  | Ok r =>
      let dial := WsDial (host r) (port r) in
      match ws_dial net (host r) (port r) with
      | None => (Err ErrDial, [get; dial])
      | Some c => (Ok (set_conn (Some c) r), [get; dial; GoReceive c])
      end
  end.

(** *** The receive loop *)

(** [go r.eventHandler(r, ev, s)] *)
Record call := mkCall {
  call_handler : nat;
  call_event : rotator.Event;
  call_status : Status.t;
}.

Definition notify (r : Proxy) (ev : rotator.Event) (s : Status.t) : list call :=
  match eventHandler r with
  | Some h => [mkCall h ev s]
  | None => []
  end.

(** The four comparisons of the case ["heading"], each on the proxy as the
    previous ones left it. *)
Definition heading_azimuth (s : Status.t) (st : Proxy * list call) : Proxy * list call :=
  let (r, calls) := st in
  if decide (azimuth r ≠ Status.Azimuth s)
  then (set_azimuth (Status.Azimuth s) r, calls ++ notify r rotator.Azimuth s)
  else st.

Definition heading_azPreset (s : Status.t) (st : Proxy * list call) : Proxy * list call :=
  let (r, calls) := st in
  if decide (azPreset r ≠ Status.AzPreset s)
  then (set_azPreset (Status.AzPreset s) r, calls ++ notify r rotator.Azimuth s)
  else st.

Definition heading_elevation (s : Status.t) (st : Proxy * list call) : Proxy * list call :=
  let (r, calls) := st in
  if decide (elevation r ≠ Status.Elevation s)
  then (set_elevation (Status.Elevation s) r, calls ++ notify r rotator.Elevation s)
  else st.

Definition heading_elPreset (s : Status.t) (st : Proxy * list call) : Proxy * list call :=
  let (r, calls) := st in
  if decide (elPreset r ≠ Status.ElPreset s)
  then (set_elPreset (Status.ElPreset s) r, calls ++ notify r rotator.Elevation s)
  else st.

Definition on_heading (r : Proxy) (s : Status.t) : Proxy * list call :=
  heading_elPreset s (heading_elevation s (heading_azPreset s (heading_azimuth s (r, [])))).

(** The [switch data.Name] of the loop.  [data] is what [json.Unmarshal]
    left in the event (a frame that is no JSON leaves the zero event, whose
    name matches no case). *)
Definition on_event (r : Proxy) (data : hub.Event.t) : Proxy * list call :=
  if decide (hub.Event.Name data = "add") then (r, [])
  else if decide (hub.Event.Name data = "remove") then (r, [])
  else if decide (hub.Event.Name data = "heading") then on_heading r (hub.Event.Status data)
  else (r, []).

(** The loop over the frames read until [conn.ReadMessage] fails; then the
    goroutine returns and the deferred [close(done)] runs. *)
Fixpoint receive (frames : list hub.Event.t) (r : Proxy) : Proxy * list call :=
  match frames with
  | [] => (r, [])
  | data :: rest =>
      let (r1, calls1) := on_event r data in
      let (r2, calls2) := receive rest r1 in
      (r2, calls1 ++ calls2)
  end.

(** *** Commands *)

(** The proxy together with what it has done on the network. *)
Record world := mkWorld {
  self : Proxy;
  wire : list net_action;
}.

(** [r.conn.WriteJSON(v)]: a nil connection is dereferenced. *)
Definition conn_WriteJSON (net : network) (v : payload) (w : world) : result unit * world :=
  match conn (self w) with
  | None => (Panic NilDereference, w)
  | Some c =>
      let failed := write_json_fails net (wire w) c v in
      (if failed then Err ErrWrite else Ok tt,
       mkWorld (self w) (wire w ++ [WriteJSON c v failed]))
  end.

Definition SetAzimuth (net : network) (az : Z) (w : world) : result unit * world :=
  let req := Request.mk true false az 0 false false false in
  conn_WriteJSON net (JRequest req) w.

Definition SetElevation (net : network) (el : Z) (w : world) : result unit * world :=
  let req := Request.mk false true 0 el false false false in
  conn_WriteJSON net (JRequest req) w.

Definition StopAzimuth (net : network) (w : world) : result unit * world :=
  let req := Request.mk false false 0 0 true false false in
  conn_WriteJSON net (JRequest req) w.

Definition StopElevation (net : network) (w : world) : result unit * world :=
  let req := Request.mk false false 0 0 false true false in
  conn_WriteJSON net (JRequest req) w.

Definition Stop (net : network) (w : world) : result unit * world :=
  let req := Request.mk false false 0 0 false false true in
  conn_WriteJSON net (JRequest req) w.

Definition ExecuteRequest (net : network) (req : Request.t) (w : world) : result unit * world :=
  conn_WriteJSON net (JRequest req) w.

Definition write (net : network) (s : Status.t) (w : world) : result unit * world :=
  conn_WriteJSON net (JStatus s) w.

(** *** Read accessors *)

Definition Name (r : Proxy) : string := name r.
Definition HasAzimuth (r : Proxy) : bool := hasAzimuth r.
Definition HasElevation (r : Proxy) : bool := hasElevation r.
Definition Azimuth (r : Proxy) : Z := azimuth r.
Definition AzPreset (r : Proxy) : Z := azPreset r.
Definition Elevation (r : Proxy) : Z := elevation r.
Definition ElPreset (r : Proxy) : Z := elPreset r.

Definition Status (r : Proxy) : Status.t :=
  Status.mk (name r) (azimuth r) (azPreset r) (azimuthOverlap r) (elevation r) (elPreset r).

Definition Info (r : Proxy) : Info.t :=
  Info.mk (name r) (hasAzimuth r) (hasElevation r)
          (azimuthMin r) (azimuthMax r) (azimuthStop r) (azimuthOverlap r)
          (elevationMin r) (elevationMax r)
          (azimuth r) (azPreset r) (elevation r) (elPreset r).

End proxy.


(* ===================================================================== *)
(** ** Vocabulary of the specification                                   *)
(* ===================================================================== *)

#[global] Instance rotator_Event_eq_dec : EqDecision rotator.Event.
Proof. solve_decision. Defined.

(** *** The TCP push line *)

Definition is_digit (a : ascii) : bool :=
  (48 <=? nat_of_ascii a)%nat && (nat_of_ascii a <=? 57)%nat.

Definition digit_value (a : ascii) : Z := Z.of_nat (nat_of_ascii a) - 48.

(** [f] is a field of exactly three decimal digits that reads as [n]. *)
Definition three_digits (n : Z) (f : string) : Prop :=
  ∃ a b c : ascii,
    f = String a (String b (String c EmptyString)) ∧
    is_digit a = true ∧ is_digit b = true ∧ is_digit c = true ∧
    100 * digit_value a + 10 * digit_value b + digit_value c = n.

(** [line] is [+0AAA+0EEE\r\n] for the heading of [s]. *)
Definition push_format (s : rotator.Status.t) (line : string) : Prop :=
  ∃ A E : string,
    three_digits (rotator.Status.Azimuth s) A ∧
    three_digits (rotator.Status.Elevation s) E ∧
    line = "+0" +:+ A +:+ "+0" +:+ E +:+ fmt.CRLF.

(** The same, as a test. *)
Definition three_digits_b (n : Z) (f : string) : bool :=
  match f with
  | String a (String b (String c EmptyString)) =>
      is_digit a && is_digit b && is_digit c &&
      (100 * digit_value a + 10 * digit_value b + digit_value c =? n)
  | _ => false
  end.

(** *** Handler calls of the proxy *)

(** How often the handler was started for an axis. *)
Definition fired (ev : rotator.Event) (calls : list proxy.call) : nat :=
  length (filter (fun c => proxy.call_event c = ev) calls).

Definition differs (cached received : Z) : nat :=
  if decide (cached ≠ received) then 1%nat else 0%nat.

(** An axis changed when its heading or its preset did. *)
Definition axis_changed (r : proxy.Proxy) (s : rotator.Status.t) (ev : rotator.Event) : bool :=
  match ev with
  | rotator.Azimuth =>
      negb (proxy.azimuth r =? rotator.Status.Azimuth s) ||
      negb (proxy.azPreset r =? rotator.Status.AzPreset s)
  | rotator.Elevation =>
      negb (proxy.elevation r =? rotator.Status.Elevation s) ||
      negb (proxy.elPreset r =? rotator.Status.ElPreset s)
  end.

(** The event carries the heading the proxy already has. *)
Definition same_heading (r : proxy.Proxy) (s : rotator.Status.t) : Prop :=
  proxy.azimuth r = rotator.Status.Azimuth s ∧
  proxy.azPreset r = rotator.Status.AzPreset s ∧
  proxy.elevation r = rotator.Status.Elevation s ∧
  proxy.elPreset r = rotator.Status.ElPreset s.

Definition heading (s : rotator.Status.t) : hub.Event.t :=
  hub.Event.mk "heading" s.

(** The descriptor [i] as the proxy can hold it: the proxy never assigns
    its overlap flag. *)
Definition without_overlap (i : rotator.Info.t) : rotator.Info.t :=
  rotator.Info.mk
    (rotator.Info.Name i) (rotator.Info.HasAzimuth i) (rotator.Info.HasElevation i)
    (rotator.Info.AzimuthMin i) (rotator.Info.AzimuthMax i) (rotator.Info.AzimuthStop i)
    false
    (rotator.Info.ElevationMin i) (rotator.Info.ElevationMax i)
    (rotator.Info.Azimuth i) (rotator.Info.AzPreset i)
    (rotator.Info.Elevation i) (rotator.Info.ElPreset i).

(** Whether a dial is among the network actions. *)
Definition dialed (tr : list proxy.net_action) : bool :=
  existsb (fun a => match a with proxy.WsDial _ _ => true | _ => false end) tr.

(** The options a caller outside the package can build. *)
Definition public_option (o : proxy.Proxy → proxy.Proxy) : Prop :=
  (∃ h, o = proxy.Host h) ∨ (∃ p, o = proxy.Port p) ∨ (∃ h, o = proxy.EventHandler h).

(** A command forwards [req] on connection [c]: the request is written
    once, the outcome of the write is what the command returns, and the
    proxy is as before. *)
Definition forwards (net : proxy.network)
    (cmd : proxy.world → proxy.result unit * proxy.world)
    (req : rotator.Request.t) (c : nat) (w : proxy.world) : Prop :=
  let failed := proxy.write_json_fails net (proxy.wire w) c (proxy.JRequest req) in
  (cmd w).1 = (if failed then proxy.Err proxy.ErrWrite else proxy.Ok tt) ∧
  proxy.wire (cmd w).2 = proxy.wire w ++ [proxy.WriteJSON c (proxy.JRequest req) failed] ∧
  proxy.self (cmd w).2 = proxy.self w.

(** The handler is started exactly once for an axis that changed, and not
    at all for one that did not. *)
Definition once_per_axis (r : proxy.Proxy) (s : rotator.Status.t) : Prop :=
  ∀ ev, fired ev (proxy.on_event r (heading s)).2
        = if axis_changed r s ev then 1%nat else 0%nat.

(** *** Traces of the hub *)

Section hub_vocabulary.

Import hub.
Local Open Scope hub_scope.

(** The actions of the loop of a pass on transport [t] sending [data]. *)
Definition loop_action (t : transport) (data : string) (a : action) : Prop :=
  match a with
  | AWrite t' _ x _ => t' = t ∧ x = data
  | AClose t' _ | AMapDelete t' _ => t' = t
  | ALog _ => True
  | _ => False
  end.

(** Actions that neither write, close nor touch an entry of a map. *)
Definition silent (a : action) : Prop :=
  match a with
  | ALock | AUnlock | AMapRange _ | ALog _ => True
  | _ => False
  end.

(** A broadcast pass on transport [t] that led from [h] to [h'] isolates
    failures.  With [d] what happened in between:
    - every client registered in [h] was written to, once;
    - every write went to a client of [t] and carried [data];
    - a registered client whose write did not fail received [data], once;
    - the clients whose write failed, and only they, are gone from the map;
    - the clients closed are those whose write failed;
    - no client of the other transport was closed;
    - the map of the other transport is as it was. *)
Definition isolates (t : transport) (data : string) (h h' : Hub) : Prop :=
  let d := since h h' in
  trace h' = trace h ++ d ∧
  written t d ≡ₚ keys (clients t h) ∧
  (∀ t' c x f, AWrite t' c x f ∈ d → t' = t ∧ x = data) ∧
  (∀ c, is_Some (clients t h !! c) → c ∉ failed t d → received t c d = [data]) ∧
  (∀ c, clients t h' !! c = if decide (c ∈ failed t d) then None else clients t h !! c) ∧
  closed t d = failed t d ∧
  (∀ t' c, AClose t' c ∈ d → t' = t) ∧
  (∀ t', t' ≠ t → clients t' h' = clients t' h).

(** One call of the registration of a transport, and a sequence of them. *)
Definition AddClient (call : transport * ptr) : M unit :=
  match call with
  | (TCP, c) => AddTCPClient c
  | (WS, c) => AddWsClient c
  end.

Fixpoint add_all (calls : list (transport * ptr)) : M unit :=
  match calls with
  | [] => ret tt
  | call :: rest => AddClient call >> add_all rest
  end.

(** The number of entries a client has in the map of a transport. *)
Definition entries (t : transport) (c : ptr) (h : Hub) : nat :=
  length (filter (fun k => k = c) (keys (clients t h))).

End hub_vocabulary.

(** *** More on the traces of the hub *)

Module traces.

Import hub.
Local Open Scope hub_scope.

#[global] Instance logline_eq_dec : EqDecision logline.
Proof. solve_decision. Defined.

#[global] Instance action_eq_dec : EqDecision action.
Proof. solve_decision. Defined.

(** How often an action occurs in a trace. *)
Definition occurrences (a : action) (tr : list action) : nat :=
  length (filter (fun x => x = a) tr).

(** One call of the removal of a transport. *)
Definition RemoveClient (call : transport * ptr) : M unit :=
  match call with
  | (TCP, c) => RemoveTCPClient c
  | (WS, c) => RemoveWsClient c
  end.



(** The calls a user of the hub can make, and a sequence of them. *)
Inductive api :=
| ApiAddTCP (c : ptr)
| ApiAddWs (c : ptr)
| ApiRemoveTCP (c : ptr)
| ApiRemoveWs (c : ptr)
| ApiBroadcast (s : rotator.Status.t).

Definition call (rt : runtime) (a : api) : M unit :=
  match a with
  | ApiAddTCP c => AddTCPClient c
  | ApiAddWs c => AddWsClient c
  | ApiRemoveTCP c => RemoveTCPClient c
  | ApiRemoveWs c => RemoveWsClient c
  | ApiBroadcast s => Broadcast rt s
  end.

Fixpoint calls (rt : runtime) (l : list api) : M unit :=
  match l with
  | [] => ret tt
  | a :: rest => call rt a >> calls rt rest
  end.

Definition is_AddWs (a : api) : bool :=
  match a with
  | ApiAddWs _ => true
  | _ => false
  end.

(** What a locked pass over the clients of [t] with [data] does between [h]
    and [h']: it takes the lock, ranges, runs the loop ([d]) and releases
    the lock. *)
Definition pass (rt : runtime) (t : transport) (data : string) (h h' : Hub)
    (d : list action) : Prop :=
  trace h' = trace h ++ [ALock; AMapRange t] ++ d ++ [AUnlock] ∧
  Forall (loop_action t data) d ∧
  closed t d = failed t d ∧
  (∀ c, clients t h' !! c = if decide (c ∈ failed t d) then None else clients t h !! c) ∧
  (∀ t', t' ≠ t → clients t' h' = clients t' h) ∧
  (∀ c, c ∈ failed t d → ∃ tr, write_fails rt tr t c data = true).

(** The writes to client [c] of transport [t] never fail. *)
Definition never_fails (rt : runtime) (t : transport) (c : ptr) : Prop :=
  ∀ tr data, write_fails rt tr t c data = false.

(** What one [Broadcast] of [s] pushes to a client of transport [t]. *)
Definition pushed (rt : runtime) (t : transport) (s : rotator.Status.t) : list string :=
  match t with
  | TCP => [tcp_data s]
  | WS => match json_Marshal rt s with Some msg => [msg] | None => [] end
  end.

End traces.

(** *** The proxy over time *)

Module streams.

Import proxy.

(** A frame the receive loop acts on. *)
Definition is_heading (data : hub.Event.t) : Prop :=
  hub.Event.Name data = "heading".

#[global] Instance is_heading_dec (data : hub.Event.t) : Decision (is_heading data).
Proof. unfold is_heading. apply _. Defined.

(** The status of the last ["heading"] frame, when there is one. *)
Definition last_heading (frames : list hub.Event.t) : option rotator.Status.t :=
  last (hub.Event.Status <$> filter is_heading frames).

(** The four fields the receive loop mirrors, in the cache and in a status. *)
Definition heading_of (r : Proxy) : Z * Z * Z * Z :=
  (azimuth r, azPreset r, elevation r, elPreset r).

Definition heading_in (s : rotator.Status.t) : Z * Z * Z * Z :=
  (rotator.Status.Azimuth s, rotator.Status.AzPreset s,
   rotator.Status.Elevation s, rotator.Status.ElPreset s).

(** Everything else a proxy holds. *)
Definition static (r : Proxy) :=
  (host r, port r, conn r, eventHandler r, name r,
   (azimuthMin r, azimuthMax r, azimuthStop r, azimuthOverlap r),
   (elevationMin r, elevationMax r), (hasAzimuth r, hasElevation r)).

(** The commands of a proxy, the request each one sends, and a sequence of
    them run one after the other. *)
Inductive command :=
| CmdSetAzimuth (az : Z)
| CmdSetElevation (el : Z)
| CmdStopAzimuth
| CmdStopElevation
| CmdStop
| CmdExecute (req : rotator.Request.t).

Definition request_of (cmd : command) : rotator.Request.t :=
  match cmd with
  | CmdSetAzimuth az => rotator.Request.mk true false az 0 false false false
  | CmdSetElevation el => rotator.Request.mk false true 0 el false false false
  | CmdStopAzimuth => rotator.Request.mk false false 0 0 true false false
  | CmdStopElevation => rotator.Request.mk false false 0 0 false true false
  | CmdStop => rotator.Request.mk false false 0 0 false false true
  | CmdExecute req => req
  end.

Definition run (net : network) (cmd : command) : world → result unit * world :=
  match cmd with
  | CmdSetAzimuth az => SetAzimuth net az
  | CmdSetElevation el => SetElevation net el
  | CmdStopAzimuth => StopAzimuth net
  | CmdStopElevation => StopElevation net
  | CmdStop => Stop net
  | CmdExecute req => ExecuteRequest net req
  end.

Fixpoint run_all (net : network) (cmds : list command) (w : world)
  : list (result unit) * world :=
  match cmds with
  | [] => ([], w)
  | cmd :: rest =>
      let (res, w1) := run net cmd w in
      let (ress, w2) := run_all net rest w1 in
      (res :: ress, w2)
  end.

(** The writes on the wire: connection, value, and whether the write
    failed. *)
Definition writes (tr : list net_action) : list (nat * payload * bool) :=
  omap (fun a => match a with
                 | WriteJSON c v failed => Some (c, v, failed)
                 | _ => None
                 end) tr.

Definition gets (tr : list net_action) : list (string * Z) :=
  omap (fun a => match a with HttpGet h p => Some (h, p) | _ => None end) tr.

Definition dials (tr : list net_action) : list (string * Z) :=
  omap (fun a => match a with WsDial h p => Some (h, p) | _ => None end) tr.

(** The proxy [New] configures before it contacts the remote side. *)
Definition configured (opts : list (Proxy → Proxy)) : Proxy :=
  foldl (fun r opt => opt r) fresh opts.

Definition receivers (tr : list net_action) : list nat :=
  omap (fun a => match a with GoReceive c => Some c | _ => None end) tr.

End streams.

(** *** Sample inputs *)

Module sample.

(** A rotator with azimuth overlap, as a server reports it. *)
Definition info : rotator.Info.t :=
  rotator.Info.mk "yaesu" true false 0 450 0 true 0 180 270 270 0 0.

Definition options : list (proxy.Proxy → proxy.Proxy) :=
  [proxy.Host "localhost"; proxy.Port 7070; proxy.EventHandler (Some 1%nat)].

(** A server answering with [infos], whose websocket accepts the dial. *)
Definition server (infos : list rotator.Info.t) : proxy.network :=
  proxy.mkNetwork (fun _ _ => proxy.Decoded infos)
                  (fun _ _ => Some 7%nat)
                  (fun _ _ _ => false).

(** A proxy mirroring [info], connected, with a handler. *)
Definition mirror : proxy.Proxy :=
  proxy.mk "localhost" 7070 (Some 7%nat) (Some 1%nat) "yaesu"
           0 450 0 false 0 180 true false 270 270 0 0.

Definition status (az azp el elp : Z) : rotator.Status.t :=
  rotator.Status.mk "yaesu" az azp false el elp.

(** A runtime that ranges over the keys as the map lists them, on which
    the writes to client 2 fail, and that marshals a status to its name. *)
Definition runtime : hub.runtime :=
  hub.mkRuntime (fun _ l => l)
                (fun _ _ c _ => bool_decide (c = 2%positive))
                (fun s => Some (rotator.Status.Name s)).

(** A hub with three TCP clients and two websocket clients. *)
Definition switchboard : hub.Hub :=
  hub.mkHub (<[1%positive:=true]> (<[2%positive:=true]> (<[3%positive:=true]> ∅)))
            (<[2%positive:=true]> (<[4%positive:=true]> ∅))
            [].

(** A runtime like [runtime] whose [json.Marshal] fails. *)
Definition mute : hub.runtime :=
  hub.mkRuntime (fun _ l => l)
                (fun _ _ c _ => bool_decide (c = 2%positive))
                (fun _ => None).

(** Two statuses to broadcast, two commands to send. *)
Definition statuses : list rotator.Status.t :=
  [status 5 0 120 0; status 360 0 0 0].

Definition commands : list streams.command :=
  [streams.CmdSetAzimuth 90; streams.CmdStop].

(** Two connections accepted by the TCP listener. *)
Definition accepted : list (bool * hub.ptr) :=
  [(true, 5%positive); (true, 6%positive)].

End sample.

(* ===================================================================== *)
(** ** Properties of the proxy                                           *)
(* ===================================================================== *)

Section proxy_properties.

Import proxy.

Variable net : network.

(** One descriptor: twelve of its fields are copied, the overlap flag of
    the proxy stays as it was. *)
Lemma getInfo_one (r : Proxy) (i : rotator.Info.t) :
  get_info net (host r) (port r) = Decoded [i] →
  ∃ r', getInfo net r = Ok r' ∧
        Info r' = rotator.Info.mk
          (rotator.Info.Name i) (rotator.Info.HasAzimuth i) (rotator.Info.HasElevation i)
          (rotator.Info.AzimuthMin i) (rotator.Info.AzimuthMax i)
          (rotator.Info.AzimuthStop i) (azimuthOverlap r)
          (rotator.Info.ElevationMin i) (rotator.Info.ElevationMax i)
          (rotator.Info.Azimuth i) (rotator.Info.AzPreset i)
          (rotator.Info.Elevation i) (rotator.Info.ElPreset i) ∧
        host r' = host r ∧ port r' = port r ∧ conn r' = conn r ∧
        eventHandler r' = eventHandler r.
Proof.
  intros Hget. unfold getInfo. rewrite Hget. simpl.
  eexists. split; [reflexivity|]. simpl. auto.
Qed.

Lemma getInfo_empty (r : Proxy) :
  get_info net (host r) (port r) = Decoded [] →
  getInfo net r = Panic (IndexOutOfRange 0 0).
Proof. intros Hget. unfold getInfo. now rewrite Hget. Qed.

Lemma getInfo_many (r : Proxy) (infos : list rotator.Info.t) :
  get_info net (host r) (port r) = Decoded infos →
  (2 ≤ length infos)%nat →
  getInfo net r = Err (ErrCount (length infos)).
Proof.
  intros Hget Hlen. unfold getInfo. rewrite Hget.
  destruct (1 <? length infos)%nat eqn:E; [reflexivity|].
  apply Nat.ltb_ge in E. lia.
Qed.

(** The public options leave the cache of a proxy alone. *)
Lemma options_overlap (opts : list (Proxy → Proxy)) (r : Proxy) :
  Forall public_option opts →
  azimuthOverlap (foldl (fun r opt => opt r) r opts) = azimuthOverlap r.
Proof.
  intros Hopts. revert r.
  induction Hopts as [|o opts Ho _ IH]; intros r; [reflexivity|].
  simpl. rewrite IH.
  destruct Ho as [[h ->]|[[p ->]|[h ->]]]; reflexivity.
Qed.

(** C1: when the info response holds exactly one descriptor and the dial
    that follows succeeds, [New] returns a proxy whose [Info()] carries
    every field of the fetched descriptor but the overlap flag, which is
    [false] whatever the descriptor says: [getInfo] never assigns it. *)
Theorem New_single_info (opts : list (Proxy → Proxy)) (i : rotator.Info.t) (c : nat) :
  let r0 := foldl (fun r opt => opt r) fresh opts in
  Forall public_option opts →
  get_info net (host r0) (port r0) = Decoded [i] →
  ws_dial net (host r0) (port r0) = Some c →
  ∃ r, (New net opts).1 = Ok r ∧
       conn r = Some c ∧
       Info r = without_overlap i ∧
       (rotator.Info.AzimuthOverlap i = true → Info r ≠ i).
Proof.
  intros r0 Hopts Hget Hdial. unfold New. fold r0.
  destruct (getInfo_one r0 i Hget) as (r1 & -> & Hinfo & Hhost & Hport & _).
  rewrite Hhost, Hport, Hdial. eexists. split; [reflexivity|].
  assert (Info (set_conn (Some c) r1) = without_overlap i) as HI.
  { change (Info (set_conn (Some c) r1)) with (Info r1). rewrite Hinfo.
    unfold r0. rewrite (options_overlap opts fresh Hopts). reflexivity. }
  split; [reflexivity|]. split; [exact HI|].
  intros Hov Heq. rewrite HI in Heq.
  apply (f_equal rotator.Info.AzimuthOverlap) in Heq.
  simpl in Heq. congruence.
Qed.

(** C2: when the info response holds no descriptor or more than one, [New]
    dials nothing; with two or more it returns the counting error; with
    none the length check lets it pass and indexing [infos[0]] panics
    instead of returning an error. *)
Theorem New_wrong_count (opts : list (Proxy → Proxy)) (infos : list rotator.Info.t) :
  let r0 := foldl (fun r opt => opt r) fresh opts in
  get_info net (host r0) (port r0) = Decoded infos →
  length infos ≠ 1%nat →
  dialed (New net opts).2 = false ∧
  ((2 ≤ length infos)%nat → (New net opts).1 = Err (ErrCount (length infos))) ∧
  (infos = [] → (New net opts).1 = Panic (IndexOutOfRange 0 0)).
Proof.
  intros r0 Hget Hlen. unfold New. fold r0.
  destruct infos as [|i [|j infos]].
  - rewrite (getInfo_empty r0 Hget). simpl.
    split; [reflexivity|]. split; [lia|reflexivity].
  - simpl in Hlen. lia.
  - rewrite (getInfo_many r0 (i :: j :: infos) Hget) by (simpl; lia).
    simpl. split; [reflexivity|]. split; [reflexivity|discriminate].
Qed.

(** C9: on an open connection each of the five commands writes its request
    once, returns the outcome of that write and leaves the proxy as it
    was. *)
Theorem commands_forward (w : world) (c : nat) (az el : Z) :
  conn (self w) = Some c →
  forwards net (SetAzimuth net az)
    (rotator.Request.mk true false az 0 false false false) c w ∧
  forwards net (SetElevation net el)
    (rotator.Request.mk false true 0 el false false false) c w ∧
  forwards net (StopAzimuth net)
    (rotator.Request.mk false false 0 0 true false false) c w ∧
  forwards net (StopElevation net)
    (rotator.Request.mk false false 0 0 false true false) c w ∧
  forwards net (Stop net)
    (rotator.Request.mk false false 0 0 false false true) c w.
Proof.
  intros Hc.
  unfold forwards, SetAzimuth, SetElevation, StopAzimuth, StopElevation, Stop,
    conn_WriteJSON.
  rewrite Hc. simpl. repeat split.
Qed.

(** The four comparisons, one by one. *)
Lemma on_heading_fields (r : Proxy) (s : rotator.Status.t) :
  (on_heading r s).1
  = set_elPreset (rotator.Status.ElPreset s)
      (set_elevation (rotator.Status.Elevation s)
         (set_azPreset (rotator.Status.AzPreset s)
            (set_azimuth (rotator.Status.Azimuth s) r))).
Proof.
  destruct r, s. unfold on_heading, heading_azimuth, heading_azPreset,
    heading_elevation, heading_elPreset.
  simpl. repeat (case_decide; simpl in * ); subst;
    unfold set_elPreset, set_elevation, set_azPreset, set_azimuth; simpl;
    repeat match goal with H : ¬ _ ≠ _ |- _ => apply dec_stable in H end;
    congruence.
Qed.

Lemma on_heading_calls (r : Proxy) (s : rotator.Status.t) :
  (on_heading r s).2
  = concat [
      (if decide (azimuth r ≠ rotator.Status.Azimuth s)
       then notify r rotator.Azimuth s else []);
      (if decide (azPreset r ≠ rotator.Status.AzPreset s)
       then notify r rotator.Azimuth s else []);
      (if decide (elevation r ≠ rotator.Status.Elevation s)
       then notify r rotator.Elevation s else []);
      (if decide (elPreset r ≠ rotator.Status.ElPreset s)
       then notify r rotator.Elevation s else [])].
Proof.
  destruct r, s. unfold on_heading, heading_azimuth, heading_azPreset,
    heading_elevation, heading_elPreset, notify.
  simpl. repeat (case_decide; simpl in * ); destruct eventHandler0; reflexivity.
Qed.

Lemma on_event_heading (r : Proxy) (s : rotator.Status.t) :
  on_event r (heading s) = on_heading r s.
Proof. reflexivity. Qed.

(** C3: a ["heading"] event sets the four heading fields of the cache to
    the received ones and nothing else; the registered handler is started
    once for every field that changed (so up to twice for an axis, the
    heading and the preset counting separately), each time with the
    received status; an event with the cached heading changes nothing and
    starts nothing, and without a handler nothing is started. *)
Theorem heading_event (r : Proxy) (s : rotator.Status.t) :
  let r' := (on_event r (heading s)).1 in
  let calls := (on_event r (heading s)).2 in
  (Azimuth r' = rotator.Status.Azimuth s ∧ AzPreset r' = rotator.Status.AzPreset s ∧
   Elevation r' = rotator.Status.Elevation s ∧ ElPreset r' = rotator.Status.ElPreset s) ∧
  r' = set_elPreset (rotator.Status.ElPreset s)
         (set_elevation (rotator.Status.Elevation s)
            (set_azPreset (rotator.Status.AzPreset s)
               (set_azimuth (rotator.Status.Azimuth s) r))) ∧
  (eventHandler r = None → calls = []) ∧
  (∀ h, eventHandler r = Some h →
     fired rotator.Azimuth calls
     = (differs (azimuth r) (rotator.Status.Azimuth s)
        + differs (azPreset r) (rotator.Status.AzPreset s))%nat ∧
     fired rotator.Elevation calls
     = (differs (elevation r) (rotator.Status.Elevation s)
        + differs (elPreset r) (rotator.Status.ElPreset s))%nat ∧
     Forall (fun c => call_handler c = h ∧ call_status c = s) calls) ∧
  (same_heading r s → r' = r ∧ calls = []).
Proof.
  intros r' calls. subst r' calls. rewrite on_event_heading.
  rewrite on_heading_fields, on_heading_calls.
  split; [repeat split|]. split; [reflexivity|].
  split; [|split].
  - intros Hnone. unfold notify. rewrite Hnone.
    repeat case_decide; reflexivity.
  - intros h Hsome. unfold notify, differs, fired. rewrite Hsome.
    repeat case_decide; simpl; repeat split; repeat constructor.
  - intros (Haz & Hazp & Hel & Help).
    split.
    + destruct r, s. simpl in *. subst. reflexivity.
    + repeat case_decide; try contradiction. reflexivity.
Qed.

(** C3, as stated: with the heading and the preset of one axis both
    changed, the handler is started twice for that axis, not once. *)
Lemma heading_twice_per_axis :
  ¬ once_per_axis sample.mirror (sample.status 90 90 0 0).
Proof.
  intros H. specialize (H rotator.Azimuth). vm_compute in H. discriminate.
Qed.

(** C10: the snapshot of [Status()] agrees with the single accessors. *)
Theorem Status_accessors (r : Proxy) :
  rotator.Status.Name (Status r) = Name r ∧
  rotator.Status.Azimuth (Status r) = Azimuth r ∧
  rotator.Status.AzPreset (Status r) = AzPreset r ∧
  rotator.Status.Elevation (Status r) = Elevation r ∧
  rotator.Status.ElPreset (Status r) = ElPreset r.
Proof. repeat split. Qed.

End proxy_properties.

Lemma New_single_info_witness :
  ∃ r, (proxy.New (sample.server [sample.info]) sample.options).1 = proxy.Ok r ∧
       proxy.conn r = Some 7%nat ∧
       proxy.Info r = without_overlap sample.info ∧
       (rotator.Info.AzimuthOverlap sample.info = true → proxy.Info r ≠ sample.info).
Proof.
  apply (New_single_info (sample.server [sample.info]) sample.options sample.info 7%nat).
  - unfold sample.options, public_option.
    repeat (apply Forall_cons; split); [eauto | eauto | eauto | apply Forall_nil_2].
  - reflexivity.
  - reflexivity.
Defined.

Lemma New_wrong_count_witness :
  dialed (proxy.New (sample.server []) sample.options).2 = false ∧
  ((2 ≤ length (@nil rotator.Info.t))%nat →
   (proxy.New (sample.server []) sample.options).1
   = proxy.Err (proxy.ErrCount (length (@nil rotator.Info.t)))) ∧
  (@nil rotator.Info.t = [] →
   (proxy.New (sample.server []) sample.options).1
   = proxy.Panic (proxy.IndexOutOfRange 0 0)).
Proof.
  apply (New_wrong_count (sample.server []) sample.options []).
  - reflexivity.
  - simpl. lia.
Defined.

Lemma commands_forward_witness :
  forwards (sample.server [sample.info])
    (proxy.SetAzimuth (sample.server [sample.info]) 90)
    (rotator.Request.mk true false 90 0 false false false) 7
    (proxy.mkWorld sample.mirror []) ∧
  forwards (sample.server [sample.info])
    (proxy.SetElevation (sample.server [sample.info]) 45)
    (rotator.Request.mk false true 0 45 false false false) 7
    (proxy.mkWorld sample.mirror []) ∧
  forwards (sample.server [sample.info])
    (proxy.StopAzimuth (sample.server [sample.info]))
    (rotator.Request.mk false false 0 0 true false false) 7
    (proxy.mkWorld sample.mirror []) ∧
  forwards (sample.server [sample.info])
    (proxy.StopElevation (sample.server [sample.info]))
    (rotator.Request.mk false false 0 0 false true false) 7
    (proxy.mkWorld sample.mirror []) ∧
  forwards (sample.server [sample.info])
    (proxy.Stop (sample.server [sample.info]))
    (rotator.Request.mk false false 0 0 false false true) 7
    (proxy.mkWorld sample.mirror []).
Proof.
  apply (commands_forward (sample.server [sample.info])
           (proxy.mkWorld sample.mirror []) 7%nat 90 45).
  reflexivity.
Defined.

(* ===================================================================== *)
(** ** Properties of the hub: the TCP push line                          *)
(* ===================================================================== *)

Section push_line.

Lemma three_digits_b_sound (n : Z) (f : string) :
  three_digits_b n f = true → three_digits n f.
Proof.
  destruct f as [|a [|b [|c [|]]]]; simpl; try discriminate.
  intros H.
  apply andb_prop in H as [H Hn]. apply andb_prop in H as [H Hc].
  apply andb_prop in H as [Ha Hb].
  exists a, b, c. repeat split; try assumption. now apply Z.eqb_eq.
Qed.

(** Every number from 0 to 999 prints as its three digits. *)
Lemma fmt_d3_table :
  forallb (fun k => three_digits_b (Z.of_nat k) (fmt.d 3 (Z.of_nat k))) (seq 0 1000) = true.
Proof. vm_compute. reflexivity. Qed.

Lemma fmt_d3_three_digits (n : Z) :
  0 ≤ n ≤ 999 → three_digits n (fmt.d 3 n).
Proof.
  intros Hn. apply three_digits_b_sound.
  pose proof fmt_d3_table as Htab.
  rewrite forallb_forall in Htab.
  specialize (Htab (Z.to_nat n)).
  rewrite Z2Nat.id in Htab by lia.
  apply Htab. apply in_seq. lia.
Qed.

(** Three digits read as a number below 1000. *)
Lemma three_digits_range (n : Z) (f : string) :
  three_digits n f → 0 ≤ n ≤ 999.
Proof.
  intros (a & b & c & _ & Ha & Hb & Hc & <-).
  unfold is_digit, digit_value in *.
  apply andb_prop in Ha, Hb, Hc.
  destruct Ha as [Ha1 Ha2], Hb as [Hb1 Hb2], Hc as [Hc1 Hc2].
  apply Nat.leb_le in Ha1, Ha2, Hb1, Hb2, Hc1, Hc2. lia.
Qed.

(** C5: for a status whose azimuth and elevation lie between 0 and 999 the
    line pushed to TCP clients is [+0AAA+0EEE\r\n] with the two numbers
    zero-padded to three digits; azimuth 5 with elevation 120 gives
    [+0005+0120\r\n] and azimuth 360 with elevation 0 gives
    [+0360+0000\r\n]. *)
Theorem tcp_data_format (s : rotator.Status.t) :
  0 ≤ rotator.Status.Azimuth s ≤ 999 →
  0 ≤ rotator.Status.Elevation s ≤ 999 →
  push_format s (hub.tcp_data s) ∧
  hub.tcp_data (sample.status 5 0 120 0) = "+0005+0120" +:+ fmt.CRLF ∧
  hub.tcp_data (sample.status 360 0 0 0) = "+0360+0000" +:+ fmt.CRLF.
Proof.
  intros Haz Hel. split; [|split; reflexivity].
  exists (fmt.d 3 (rotator.Status.Azimuth s)), (fmt.d 3 (rotator.Status.Elevation s)).
  split; [now apply fmt_d3_three_digits|].
  split; [now apply fmt_d3_three_digits|reflexivity].
Qed.

(** C5, as stated for every status: an azimuth of 1000 takes four digits,
    and a negative one carries a sign. *)
Lemma tcp_data_four_digits :
  hub.tcp_data (sample.status 1000 0 0 0) = "+01000+0000" +:+ fmt.CRLF ∧
  hub.tcp_data (sample.status (-5) 0 0 0) = "+0-005+0000" +:+ fmt.CRLF ∧
  ¬ push_format (sample.status 1000 0 0 0) (hub.tcp_data (sample.status 1000 0 0 0)).
Proof.
  split; [reflexivity|]. split; [reflexivity|].
  intros (A & E & HA & _ & _).
  apply three_digits_range in HA. simpl in HA. lia.
Qed.

End push_line.

Lemma tcp_data_format_witness :
  push_format (sample.status 5 0 120 0) (hub.tcp_data (sample.status 5 0 120 0)) ∧
  hub.tcp_data (sample.status 5 0 120 0) = "+0005+0120" +:+ fmt.CRLF ∧
  hub.tcp_data (sample.status 360 0 0 0) = "+0360+0000" +:+ fmt.CRLF.
Proof.
  apply (tcp_data_format (sample.status 5 0 120 0)); simpl; lia.
Defined.

(* ===================================================================== *)
(** ** Properties of the hub: registration, broadcast, listeners         *)
(* ===================================================================== *)

Section hub_properties.

Import hub.
Local Open Scope hub_scope.

Variable rt : runtime.

Lemma exec_bind {A B} (m : M A) (k : A → M B) (h : Hub) :
  exec (bind m k) h = exec (k (m h).1) (m h).2.
Proof. unfold exec, bind. destruct (m h). reflexivity. Qed.

Lemma since_app (h h' : Hub) (d : list action) :
  trace h' = trace h ++ d → since h h' = d.
Proof. unfold since. intros ->. apply drop_app_length. Qed.

Lemma written_app t d1 d2 : written t (d1 ++ d2) = written t d1 ++ written t d2.
Proof. apply omap_app. Qed.
Lemma failed_app t d1 d2 : failed t (d1 ++ d2) = failed t d1 ++ failed t d2.
Proof. apply omap_app. Qed.
Lemma closed_app t d1 d2 : closed t (d1 ++ d2) = closed t d1 ++ closed t d2.
Proof. apply omap_app. Qed.
Lemma received_app t c d1 d2 :
  received t c (d1 ++ d2) = received t c d1 ++ received t c d2.
Proof. apply omap_app. Qed.

Lemma failed_written t d c : c ∈ failed t d → c ∈ written t d.
Proof.
  unfold failed, written. rewrite !list_elem_of_omap.
  intros (a & Ha & Hc). exists a. split; [assumption|].
  destruct a; try discriminate. destruct failed0; [assumption|discriminate].
Qed.


(** One turn of the loop. *)
Lemma send_all_cons (t : transport) (data : string) (c : ptr) (rest : list ptr) (h : Hub) :
  let f := write_fails rt (trace h) t c data in
  ∃ h1, exec (send_all rt t data (c :: rest)) h = exec (send_all rt t data rest) h1 ∧
        trace h1 = trace h ++
          (if f then [AWrite t c data true; ALog (LogWriteError t c);
                      ALog (LogDisconnecting t c); AClose t c; AMapDelete t c]
           else [AWrite t c data false]) ∧
        clients t h1 = (if f then delete c (clients t h) else clients t h) ∧
        (∀ t', t' ≠ t → clients t' h1 = clients t' h).
Proof.
  intros f. subst f. unfold exec. simpl. unfold bind at 1. unfold write.
  destruct (write_fails rt (trace h) t c data).
  - eexists. split; [reflexivity|]. destruct t; simpl; rewrite <- !app_assoc; simpl.
    + split_and!; try reflexivity. intros [] ?; [congruence|reflexivity].
    + split_and!; try reflexivity. intros [] ?; [reflexivity|congruence].
  - eexists. split; [reflexivity|]. simpl. split_and!; reflexivity.
Qed.

Lemma send_all_spec (t : transport) (data : string) (cs : list ptr) :
  ∀ h,
  ∃ d, trace (exec (send_all rt t data cs) h) = trace h ++ d ∧
       written t d = cs ∧
       closed t d = failed t d ∧
       Forall (loop_action t data) d ∧
       (∀ t', t' ≠ t → clients t' (exec (send_all rt t data cs) h) = clients t' h) ∧
       (∀ c, clients t (exec (send_all rt t data cs) h) !! c
             = if decide (c ∈ failed t d) then None else clients t h !! c) ∧
       (NoDup cs →
        ∀ c, received t c d
             = if decide (c ∈ cs ∧ c ∉ failed t d) then [data] else []).
Proof.
  induction cs as [|c rest IH]; intros h.
  - exists []. simpl. rewrite app_nil_r. split_and!; auto.
  - destruct (send_all_cons t data c rest h) as (h1 & -> & Htr & Hcl & Hoth).
    destruct (IH h1) as (d & Hd & Hw & Hclo & Hall & Hoth' & Hlook & Hrec).
    rewrite Hd, Htr, <- app_assoc.
    eexists. split; [reflexivity|].
    destruct (write_fails rt (trace h) t c data) eqn:Hf.
    + rewrite written_app, closed_app, failed_app.
      assert (written t [AWrite t c data true; ALog (LogWriteError t c);
                ALog (LogDisconnecting t c); AClose t c; AMapDelete t c] = [c]) as ->
        by (destruct t; reflexivity).
      assert (closed t [AWrite t c data true; ALog (LogWriteError t c);
                ALog (LogDisconnecting t c); AClose t c; AMapDelete t c] = [c]) as ->
        by (destruct t; reflexivity).
      assert (failed t [AWrite t c data true; ALog (LogWriteError t c);
                ALog (LogDisconnecting t c); AClose t c; AMapDelete t c] = [c]) as ->
        by (destruct t; reflexivity).
      split_and!.
      * simpl. congruence.
      * simpl. congruence.
      * apply Forall_app. split; [|assumption].
        repeat constructor.
      * intros t' Ht. rewrite Hoth' by assumption. auto.
      * intros c0. rewrite Hlook, Hcl. simpl.
        destruct (decide (c0 = c)) as [->|Hne].
        -- rewrite lookup_delete_eq.
           repeat case_decide; try reflexivity; exfalso; set_solver.
        -- rewrite lookup_delete_ne by congruence.
           repeat case_decide; try reflexivity; exfalso; set_solver.
      * intros [Hc Hnd]%NoDup_cons c0. rewrite received_app, Hrec by assumption.
        assert (Hnf : c ∉ failed t d).
        { intros H%failed_written. congruence. }
        assert (received t c0 [AWrite t c data true; ALog (LogWriteError t c);
                  ALog (LogDisconnecting t c); AClose t c; AMapDelete t c] = []) as ->
          by reflexivity.
        simpl. repeat case_decide; try reflexivity; exfalso; set_solver.
    + rewrite written_app, closed_app, failed_app.
      assert (written t [AWrite t c data false] = [c]) as ->
        by (destruct t; reflexivity).
      split_and!.
      * simpl. congruence.
      * simpl. congruence.
      * apply Forall_app. split; [|assumption].
        repeat constructor.
      * intros t' Ht. rewrite Hoth' by assumption. auto.
      * intros c0. rewrite Hlook, Hcl. reflexivity.
      * intros [Hc Hnd]%NoDup_cons c0. rewrite received_app, Hrec by assumption.
        assert (Hnf : c ∉ failed t d).
        { intros H%failed_written. congruence. }
        unfold received at 1. simpl.
        repeat case_decide; try reflexivity; exfalso; set_solver.
Qed.

Lemma elem_of_keys (m : gmap ptr bool) (c : ptr) : c ∈ keys m ↔ is_Some (m !! c).
Proof.
  unfold keys. rewrite list_elem_of_fmap. split.
  - intros ([c' b] & -> & H%elem_of_map_to_list). eauto.
  - intros [b H]. exists (c, b). split; [reflexivity|]. now apply elem_of_map_to_list.
Qed.

Lemma NoDup_keys (m : gmap ptr bool) : NoDup (keys m).
Proof. apply NoDup_fst_map_to_list. Qed.

Lemma silent_quiet (t : transport) (c : ptr) (d : list action) :
  Forall silent d →
  written t d = [] ∧ failed t d = [] ∧ closed t d = [] ∧ received t c d = [].
Proof.
  induction 1 as [|a d Ha _ (IH1 & IH2 & IH3 & IH4)]; [done|].
  destruct a; try contradiction; simpl; done.
Qed.

Lemma loop_action_serialized (t : transport) (data : string) (d rest : list action) :
  Forall (loop_action t data) d →
  serialized_from true (d ++ rest) = serialized_from true rest.
Proof.
  induction 1 as [|a d Ha _ IH]; [reflexivity|].
  destruct a; try contradiction; simpl; assumption.
Qed.

(** The effects of the primitives. *)
Lemma trace_emit (a : action) (h : Hub) : trace (exec (emit a) h) = trace h ++ [a].
Proof. reflexivity. Qed.

Lemma clients_emit (a : action) (t : transport) (h : Hub) :
  clients t (exec (emit a) h) = clients t h.
Proof. destruct t; reflexivity. Qed.

Lemma exec_locked {A} (body : M A) (h : Hub) :
  exec (Lock >> defer Unlock body) h = exec Unlock (exec body (exec Lock h)).
Proof.
  unfold defer. rewrite !exec_bind. unfold exec, bind. simpl.
  destruct (body _). reflexivity.
Qed.

(** The loop of a pass, from the [range] on. *)
Lemma range_send_spec (t : transport) (data : string) (h : Hub) :
  fair rt →
  ∃ d, trace (exec (let* cs := map_range rt t in send_all rt t data cs) h)
       = trace h ++ AMapRange t :: d ∧
       written t d ≡ₚ keys (clients t h) ∧
       closed t d = failed t d ∧
       Forall (loop_action t data) d ∧
       (∀ t', t' ≠ t →
          clients t' (exec (let* cs := map_range rt t in send_all rt t data cs) h)
          = clients t' h) ∧
       (∀ c, clients t (exec (let* cs := map_range rt t in send_all rt t data cs) h) !! c
             = if decide (c ∈ failed t d) then None else clients t h !! c) ∧
       (∀ c, is_Some (clients t h !! c) → c ∉ failed t d → received t c d = [data]).
Proof.
  intros Hfair. rewrite exec_bind. unfold map_range at 1 2. simpl.
  set (cs := range_order rt (trace h) (keys (clients t h))).
  assert (cs ≡ₚ keys (clients t h)) as Hperm by apply Hfair.
  destruct (send_all_spec t data cs (exec (emit (AMapRange t)) h))
    as (d & Hd & Hw & Hclo & Hall & Hoth & Hlook & Hrec).
  exists d. rewrite Hd, trace_emit, <- app_assoc. split_and!; try done.
  - by rewrite Hw.
  - intros c Hc Hnf. rewrite Hrec.
    + rewrite decide_True; [done|]. split; [|done].
      rewrite Hperm. by apply elem_of_keys.
    + rewrite Hperm. apply NoDup_keys.
Qed.


Lemma frame_quiet (t : transport) (c : ptr) (pre d post : list action) :
  Forall silent pre → Forall silent post →
  written t (pre ++ d ++ post) = written t d ∧
  failed t (pre ++ d ++ post) = failed t d ∧
  closed t (pre ++ d ++ post) = closed t d ∧
  received t c (pre ++ d ++ post) = received t c d.
Proof.
  intros Hpre Hpost.
  rewrite !written_app, !failed_app, !closed_app, !received_app.
  destruct (silent_quiet t c pre Hpre) as (-> & -> & -> & ->).
  destruct (silent_quiet t c post Hpost) as (-> & -> & -> & ->).
  by rewrite !app_nil_r.
Qed.

(** A locked pass over the clients of [t] isolates failures. *)
Lemma pass_isolates (t : transport) (data : string) (h h' : Hub) :
  fair rt →
  h' = exec Unlock
         (exec (let* cs := map_range rt t in send_all rt t data cs) (exec Lock h)) →
  isolates t data h h' ∧
  serialized (since h h') = true.
Proof.
  intros Hfair ->.
  destruct (range_send_spec t data (exec Lock h) Hfair)
    as (d & Hd & Hw & Hclo & Hall & Hoth & Hlook & Hrec).
  unfold Lock, Unlock in *.
  assert (trace (exec (emit AUnlock)
            (exec (let* cs := map_range rt t in send_all rt t data cs)
               (exec (emit ALock) h)))
          = trace h ++ [ALock; AMapRange t] ++ d ++ [AUnlock]) as Htr.
  { rewrite trace_emit, Hd, trace_emit. by rewrite <- !app_assoc. }
  assert (Forall silent [ALock; AMapRange t]) as Hpre by (repeat constructor).
  assert (Forall silent [AUnlock]) as Hpost by (repeat constructor).
  assert (∀ a, a ∈ [ALock; AMapRange t] ++ d ++ [AUnlock] →
               silent a ∨ loop_action t data a) as Hin.
  { intros a [Ha|[Ha|Ha]%elem_of_app]%elem_of_app.
    - left. by eapply Forall_forall in Hpre.
    - right. by eapply Forall_forall in Hall.
    - left. by eapply Forall_forall in Hpost. }
  split.
  - unfold isolates. rewrite (since_app _ _ _ Htr).
    split; [exact Htr|].
    destruct (frame_quiet t 1%positive _ d _ Hpre Hpost) as (-> & -> & -> & _).
    rewrite !clients_emit in *.
    split_and!; try done.
    + intros t' c x f [[]|[]]%Hin. done.
    + intros c Hc Hnf.
      destruct (frame_quiet t c _ d _ Hpre Hpost) as (_ & _ & _ & ->). auto.
    + intros t' c [[]|Ht]%Hin. done.
  - rewrite (since_app _ _ _ Htr). unfold serialized. simpl.
    rewrite (loop_action_serialized t data) by done. reflexivity.
Qed.


Lemma written_inv (t : transport) (c : ptr) (d : list action) :
  c ∈ written t d → ∃ x f, AWrite t c x f ∈ d.
Proof.
  unfold written. rewrite list_elem_of_omap. intros (a & Ha & Hc).
  destruct a; try discriminate. case_decide; [|discriminate].
  simplify_eq. eauto.
Qed.

Lemma since_trans (h h1 h2 : Hub) :
  trace h1 = trace h ++ since h h1 →
  trace h2 = trace h1 ++ since h1 h2 →
  trace h2 = trace h ++ since h h2 ∧ since h h2 = since h h1 ++ since h1 h2.
Proof.
  intros H1 H2.
  assert (trace h2 = trace h ++ since h h1 ++ since h1 h2) as H
    by (rewrite H2, H1 at 1; by rewrite <- app_assoc).
  rewrite (since_app h h2 _ H). done.
Qed.

(** A client that is not registered is not written to by a pass, and is
    not registered after it. *)
Lemma isolates_absent (t0 t : transport) (data : string) (h h' : Hub) (c : ptr) :
  isolates t0 data h h' →
  clients t h !! c = None →
  clients t h' !! c = None ∧ c ∉ written t (since h h').
Proof.
  intros (Htr & Hw & Hdata & _ & Hlook & _ & _ & Hoth) Hc.
  destruct (decide (t = t0)) as [->|Hne].
  - split.
    + rewrite Hlook. by case_decide.
    + rewrite Hw, elem_of_keys, Hc. by intros [? ?].
  - split.
    + by rewrite Hoth.
    + intros (x & f & Hin)%written_inv. apply Hdata in Hin as [? _]. done.
Qed.

(** A client whose write failed in a pass is not registered after it. *)
Lemma isolates_failed (t0 t : transport) (data : string) (h h' : Hub) (c : ptr) :
  isolates t0 data h h' →
  c ∈ failed t (since h h') →
  clients t h' !! c = None.
Proof.
  intros (Htr & Hw & Hdata & _ & Hlook & _ & _ & Hoth) Hc.
  destruct (decide (t = t0)) as [->|Hne].
  - rewrite Hlook. by rewrite decide_True.
  - apply failed_written, written_inv in Hc as (x & f & Hin).
    apply Hdata in Hin as [? _]. done.
Qed.

Lemma BroadcastToTCPClients_isolates (s : rotator.Status.t) (h : Hub) :
  fair rt →
  isolates TCP (tcp_data s) h (exec (BroadcastToTCPClients rt s) h) ∧
  serialized (since h (exec (BroadcastToTCPClients rt s) h)) = true.
Proof.
  intros Hfair. apply pass_isolates; [done|].
  unfold BroadcastToTCPClients. apply exec_locked.
Qed.

Lemma BroadcastToWsClients_isolates (s : rotator.Status.t) (msg : string) (h : Hub) :
  fair rt →
  json_Marshal rt s = Some msg →
  (BroadcastToWsClients rt s h).1 = false ∧
  isolates WS msg h (exec (BroadcastToWsClients rt s) h) ∧
  serialized (since h (exec (BroadcastToWsClients rt s) h)) = true.
Proof.
  intros Hfair Hmsg. split.
  - unfold BroadcastToWsClients. rewrite Hmsg.
    unfold defer, bind. simpl.
    by destruct (send_all _ _ _ _ _).
  - apply pass_isolates; [done|].
    unfold BroadcastToWsClients. rewrite Hmsg, exec_locked.
    f_equal. unfold exec, bind. simpl.
    by destruct (send_all _ _ _ _ _).
Qed.

Lemma BroadcastToWsClients_marshal_error (s : rotator.Status.t) (h : Hub) :
  json_Marshal rt s = None →
  (BroadcastToWsClients rt s h).1 = true ∧
  trace (exec (BroadcastToWsClients rt s) h) = trace h ++ [ALock; AUnlock] ∧
  ∀ t, clients t (exec (BroadcastToWsClients rt s) h) = clients t h.
Proof.
  intros Hmsg. unfold BroadcastToWsClients. rewrite Hmsg.
  split; [reflexivity|]. split.
  - unfold exec. simpl. by rewrite <- app_assoc.
  - intros []; reflexivity.
Qed.

(** [Broadcast] neither registers a client nor writes to one that is not
    registered. *)
Lemma Broadcast_absent (s : rotator.Status.t) (h : Hub) (t : transport) (c : ptr) :
  fair rt →
  clients t h !! c = None →
  clients t (exec (Broadcast rt s) h) !! c = None ∧
  (c ∉ written t (since h (exec (Broadcast rt s) h))) ∧
  trace (exec (Broadcast rt s) h) = trace h ++ since h (exec (Broadcast rt s) h).
Proof.
  intros Hfair Hc. unfold Broadcast. rewrite !exec_bind.
  destruct (BroadcastToTCPClients_isolates s h Hfair) as [Ha _].
  fold (exec (BroadcastToTCPClients rt s) h).
  set (ha := exec (BroadcastToTCPClients rt s) h) in *.
  destruct (isolates_absent _ t _ _ _ c Ha Hc) as [Hca Hwa].
  fold (exec (BroadcastToWsClients rt s) ha).
  set (hb := exec (BroadcastToWsClients rt s) ha) in *.
  destruct (json_Marshal rt s) as [msg|] eqn:Hmsg.
  - destruct (BroadcastToWsClients_isolates s msg ha Hfair Hmsg) as (-> & Hb & _).
    fold hb in Hb.
    destruct (isolates_absent _ t _ _ _ c Hb Hca) as [Hcb Hwb].
    destruct Ha as [Htra _], Hb as [Htrb _].
    destruct (since_trans h ha hb Htra Htrb) as [Htr Hs].
    change (exec (ret ()) hb) with hb.
    split; [done|]. split; [|done].
    rewrite Hs, written_app. set_solver.
  - destruct (BroadcastToWsClients_marshal_error s ha Hmsg) as (-> & Htrb & Hclb).
    fold hb in Htrb, Hclb.
    destruct Ha as [Htra _].
    assert (trace (exec (log LogMarshalError) hb)
            = trace h ++ since h ha ++ [ALock; AUnlock; ALog LogMarshalError]) as Htr.
    { unfold log. rewrite trace_emit, Htrb, Htra at 1. by rewrite <- !app_assoc. }
    rewrite (since_app _ _ _ Htr). split_and!; [|by rewrite written_app, app_nil_r|done].
    unfold log. by rewrite clients_emit, Hclb.
Qed.

Lemma broadcasts_absent (ss : list rotator.Status.t) (t : transport) (c : ptr) :
  fair rt →
  ∀ h, clients t h !! c = None →
       (c ∉ written t (since h (exec (broadcasts rt ss) h))) ∧
       trace (exec (broadcasts rt ss) h) = trace h ++ since h (exec (broadcasts rt ss) h).
Proof.
  intros Hfair. induction ss as [|s ss IH]; intros h Hc.
  - change (exec (broadcasts rt []) h) with h.
    assert (since h h = []) as -> by (apply since_app; by rewrite app_nil_r).
    rewrite app_nil_r. split; [set_solver|done].
  - simpl. rewrite exec_bind. fold (exec (Broadcast rt s) h).
    destruct (Broadcast_absent s h t c Hfair Hc) as (Hc1 & Hw1 & Htr1).
    destruct (IH _ Hc1) as [Hw2 Htr2].
    destruct (since_trans _ _ _ Htr1 Htr2) as [Htr Hs].
    split; [|done]. rewrite Hs, written_app. set_solver.
Qed.

(** After [Broadcast], a client whose write failed is registered no more. *)
Lemma Broadcast_failed (s : rotator.Status.t) (h : Hub) (t : transport) (c : ptr) :
  fair rt →
  c ∈ failed t (since h (exec (Broadcast rt s) h)) →
  clients t (exec (Broadcast rt s) h) !! c = None.
Proof.
  intros Hfair. unfold Broadcast. rewrite !exec_bind.
  destruct (BroadcastToTCPClients_isolates s h Hfair) as [Ha _].
  fold (exec (BroadcastToTCPClients rt s) h).
  set (ha := exec (BroadcastToTCPClients rt s) h) in *.
  fold (exec (BroadcastToWsClients rt s) ha).
  set (hb := exec (BroadcastToWsClients rt s) ha) in *.
  destruct (json_Marshal rt s) as [msg|] eqn:Hmsg.
  - destruct (BroadcastToWsClients_isolates s msg ha Hfair Hmsg) as (-> & Hb & _).
    fold hb in Hb.
    change (exec (ret ()) hb) with hb.
    destruct (since_trans h ha hb (proj1 Ha) (proj1 Hb)) as [_ ->].
    rewrite failed_app. intros [Hf|Hf]%elem_of_app.
    + apply (isolates_absent _ t _ _ _ c Hb).
      by apply (isolates_failed _ t _ _ _ c Ha).
    + by apply (isolates_failed _ t _ _ _ c Hb).
  - destruct (BroadcastToWsClients_marshal_error s ha Hmsg) as (-> & Htrb & Hclb).
    fold hb in Htrb, Hclb.
    assert (trace (exec (log LogMarshalError) hb)
            = trace h ++ since h ha ++ [ALock; AUnlock; ALog LogMarshalError]) as Htr.
    { unfold log. rewrite trace_emit, Htrb, (proj1 Ha) at 1. by rewrite <- !app_assoc. }
    rewrite (since_app _ _ _ Htr), failed_app, app_nil_r.
    intros Hf. unfold log. rewrite clients_emit, Hclb.
    by apply (isolates_failed _ t _ _ _ c Ha).
Qed.

(** C6: a broadcast pass writes the message once to every registered
    client, whatever happens to the others; the clients whose write failed,
    and only they, are closed and deleted from the map; and such a client
    is written to in none of the broadcasts that follow. *)
Theorem broadcast_isolates_failures (s : rotator.Status.t) (h : Hub) :
  fair rt →
  isolates TCP (tcp_data s) h (exec (BroadcastToTCPClients rt s) h) ∧
  (∀ msg, json_Marshal rt s = Some msg →
          isolates WS msg h (exec (BroadcastToWsClients rt s) h)) ∧
  (∀ t c ss,
     c ∈ failed t (since h (exec (Broadcast rt s) h)) →
     c ∉ written t (since (exec (Broadcast rt s) h)
                      (exec (broadcasts rt ss) (exec (Broadcast rt s) h)))).
Proof.
  intros Hfair. split_and!.
  - apply BroadcastToTCPClients_isolates, Hfair.
  - intros msg Hmsg. apply BroadcastToWsClients_isolates; done.
  - intros t c ss Hf.
    apply broadcasts_absent; [done|]. by apply Broadcast_failed.
Qed.


(** *** Registration *)

(** What one registration does: the trace it leaves, with the [delete] when
    the client was there, and the map it produces. *)
Lemma AddTCPClient_spec (c : ptr) (h : Hub) :
  let h' := exec (AddTCPClient c) h in
  trace h' = trace h ++
    [ALock; AMapLookup TCP c] ++
    (match tcpClients h !! c with Some _ => [AMapDelete TCP c] | None => [] end) ++
    [AMapStore TCP c; ALog (LogConnected TCP c); AGoListen TCP c; AUnlock] ∧
  tcpClients h' = <[c:=true]> (tcpClients h) ∧
  wsClients h' = wsClients h.
Proof.
  destruct h as [tcp ws tr]. unfold exec, AddTCPClient, defer, bind. simpl.
  destruct (tcp !! c) eqn:Hc; simpl; rewrite <- ?app_assoc; simpl;
    rewrite ?insert_delete_eq; done.
Qed.

Lemma AddWsClient_spec (c : ptr) (h : Hub) :
  let h' := exec (AddWsClient c) h in
  trace h' = trace h ++
    [AMapLookup WS c] ++
    (match wsClients h !! c with Some _ => [AMapDelete WS c] | None => [] end) ++
    [AMapStore WS c; ALog (LogConnected WS c); AGoListen WS c] ∧
  wsClients h' = <[c:=true]> (wsClients h) ∧
  tcpClients h' = tcpClients h.
Proof.
  destruct h as [tcp ws tr]. unfold exec, AddWsClient, bind. simpl.
  destruct (ws !! c) eqn:Hc; simpl; rewrite <- ?app_assoc; simpl;
    rewrite ?insert_delete_eq; done.
Qed.

Lemma RemoveTCPClient_spec (c : ptr) (h : Hub) :
  let h' := exec (RemoveTCPClient c) h in
  trace h' = trace h ++
    [ALock; AMapLookup TCP c] ++
    (match tcpClients h !! c with Some _ => [AMapDelete TCP c] | None => [] end) ++
    [AClose TCP c; ALog (LogDisconnected TCP c); AUnlock] ∧
  tcpClients h' = delete c (tcpClients h) ∧
  wsClients h' = wsClients h.
Proof.
  destruct h as [tcp ws tr]. unfold exec, RemoveTCPClient, defer, bind. simpl.
  destruct (tcp !! c) eqn:Hc; simpl; rewrite <- ?app_assoc; simpl;
    rewrite ?(delete_id tcp c) by done; done.
Qed.

Lemma RemoveWsClient_spec (c : ptr) (h : Hub) :
  let h' := exec (RemoveWsClient c) h in
  trace h' = trace h ++
    [ALock; AMapLookup WS c] ++
    (match wsClients h !! c with Some _ => [AMapDelete WS c] | None => [] end) ++
    [AClose WS c; ALog (LogDisconnected WS c); AUnlock] ∧
  wsClients h' = delete c (wsClients h) ∧
  tcpClients h' = tcpClients h.
Proof.
  destruct h as [tcp ws tr]. unfold exec, RemoveWsClient, defer, bind. simpl.
  destruct (ws !! c) eqn:Hc; simpl; rewrite <- ?app_assoc; simpl;
    rewrite ?(delete_id ws c) by done; done.
Qed.

Lemma AddClient_lookup (t t' : transport) (c c' : ptr) (h : Hub) :
  clients t' (exec (AddClient (t, c)) h) !! c'
  = if decide ((t, c) = (t', c')) then Some true else clients t' h !! c'.
Proof.
  assert (clients t' (exec (AddClient (t, c)) h)
          = if decide (t = t') then <[c:=true]> (clients t' h) else clients t' h) as ->.
  { destruct t; unfold AddClient.
    - destruct (AddTCPClient_spec c h) as (_ & Htcp & Hws).
      destruct t'; unfold clients; rewrite ?Htcp, ?Hws; done.
    - destruct (AddWsClient_spec c h) as (_ & Hws & Htcp).
      destruct t'; unfold clients; rewrite ?Htcp, ?Hws; done. }
  destruct (decide (t = t')) as [->|Ht].
  - rewrite lookup_insert.
    destruct (decide (c = c')) as [->|Hc].
    + by rewrite decide_True.
    + rewrite decide_False; [done|]. congruence.
  - rewrite decide_False; [done|]. congruence.
Qed.

Lemma add_all_lookup (calls : list (transport * ptr)) (t : transport) (c : ptr) :
  ∀ h, clients t (exec (add_all calls) h) !! c
       = if decide ((t, c) ∈ calls) then Some true else clients t h !! c.
Proof.
  induction calls as [|[t0 c0] calls IH]; intros h.
  - change (exec (add_all []) h) with h.
    rewrite decide_False; [done|]. set_solver.
  - cbn [add_all]. rewrite exec_bind. fold (exec (AddClient (t0, c0)) h).
    rewrite IH, AddClient_lookup.
    repeat case_decide; simplify_eq; try done; set_solver.
Qed.

Lemma entries_lookup (t : transport) (c : ptr) (h : Hub) :
  entries t c h = match clients t h !! c with Some _ => 1%nat | None => 0%nat end.
Proof.
  unfold entries.
  assert (∀ l : list ptr, NoDup l →
            length (filter (fun k => k = c) l) = if decide (c ∈ l) then 1%nat else 0%nat) as H.
  { induction 1 as [|k l Hk Hnd IH]; [done|].
    rewrite filter_cons. destruct (decide (k = c)) as [->|Hne].
    - simpl. rewrite IH. rewrite decide_False by done.
      rewrite decide_True by set_solver. done.
    - rewrite IH. repeat case_decide; try done; set_solver. }
  rewrite H by apply NoDup_keys.
  destruct (clients t h !! c) eqn:Hc.
  - rewrite decide_True; [done|]. apply elem_of_keys. eauto.
  - rewrite decide_False; [done|]. rewrite elem_of_keys, Hc. by intros [? ?].
Qed.

(** C7: after any sequence of registrations a client has at most one
    entry in the map of a transport, and exactly one when it was
    registered there; registering a client that is in the map deletes the
    old entry first and leaves one entry, the map being as large as
    before. *)
Theorem registered_once (calls : list (transport * ptr)) (h : Hub)
    (t : transport) (c : ptr) :
  (entries t c (exec (add_all calls) h) ≤ 1)%nat ∧
  ((t, c) ∈ calls → entries t c (exec (add_all calls) h) = 1%nat) ∧
  (is_Some (clients t h !! c) →
   AMapDelete t c ∈ since h (exec (AddClient (t, c)) h) ∧
   entries t c (exec (AddClient (t, c)) h) = 1%nat ∧
   size (clients t (exec (AddClient (t, c)) h)) = size (clients t h)).
Proof.
  split_and!.
  - rewrite entries_lookup. destruct (_ !! _); lia.
  - intros Hin. rewrite entries_lookup, add_all_lookup. by rewrite decide_True.
  - intros [b Hc]. split_and!.
    + destruct t; simpl in *.
      * destruct (AddTCPClient_spec c h) as (Htr & _).
        rewrite (since_app _ _ _ Htr), Hc. set_solver.
      * destruct (AddWsClient_spec c h) as (Htr & _).
        rewrite (since_app _ _ _ Htr), Hc. set_solver.
    + rewrite entries_lookup, AddClient_lookup. by rewrite decide_True.
    + destruct t; simpl in *.
      * destruct (AddTCPClient_spec c h) as (_ & -> & _).
        by eapply map_size_insert_Some.
      * destruct (AddWsClient_spec c h) as (_ & -> & _).
        by eapply map_size_insert_Some.
Qed.

(** *** The mutex *)

(** The five operations that take the lock. *)
Lemma locked_operations (h : Hub) (c : ptr) (s : rotator.Status.t) :
  fair rt →
  serialized (since h (exec (AddTCPClient c) h)) = true ∧
  serialized (since h (exec (RemoveTCPClient c) h)) = true ∧
  serialized (since h (exec (RemoveWsClient c) h)) = true ∧
  serialized (since h (exec (BroadcastToTCPClients rt s) h)) = true ∧
  serialized (since h (exec (BroadcastToWsClients rt s) h)) = true.
Proof.
  intros Hfair. split_and!.
  - destruct (AddTCPClient_spec c h) as (Htr & _).
    rewrite (since_app _ _ _ Htr). by destruct (_ !! _).
  - destruct (RemoveTCPClient_spec c h) as (Htr & _).
    rewrite (since_app _ _ _ Htr). by destruct (_ !! _).
  - destruct (RemoveWsClient_spec c h) as (Htr & _).
    rewrite (since_app _ _ _ Htr). by destruct (_ !! _).
  - by apply BroadcastToTCPClients_isolates.
  - destruct (json_Marshal rt s) as [msg|] eqn:Hmsg.
    + by apply (BroadcastToWsClients_isolates s msg).
    + destruct (BroadcastToWsClients_marshal_error s h Hmsg) as (_ & Htr & _).
      by rewrite (since_app _ _ _ Htr).
Qed.

(** C4: [AddWsClient] reads and writes the map of websocket clients
    without taking the mutex of the hub, unlike [AddTCPClient], which does
    the same on the map of TCP clients with the mutex held. *)
Theorem AddWsClient_unlocked (h : Hub) (c : ptr) :
  serialized (since h (exec (AddWsClient c) h)) = false ∧
  (ALock ∉ since h (exec (AddWsClient c) h)) ∧
  AMapStore WS c ∈ since h (exec (AddWsClient c) h) ∧
  serialized (since h (exec (AddTCPClient c) h)) = true.
Proof.
  destruct (AddWsClient_spec c h) as (Htr & _).
  destruct (AddTCPClient_spec c h) as (Htr' & _).
  rewrite (since_app _ _ _ Htr), (since_app _ _ _ Htr').
  destruct (wsClients h !! c), (tcpClients h !! c); simpl;
    split_and!; try done; set_solver.
Qed.

(** *** Listeners *)

(** C8: when [net.Listen] fails, [ListenTCP] logs the error and goes on
    with the nil listener; it accepts nothing and registers nothing, and
    the error channel is closed once, but the function ends in a panic
    instead of returning.  [ListenWS] returns after its error. *)
Theorem ListenTCP_listen_error (arrivals : list (bool * ptr)) (h : Hub) :
  (ListenTCP false arrivals h).1 = Panicked ∧
  since h (exec (ListenTCP false arrivals) h)
  = [ANetListen false; ALog LogListenerError; ACloseErrCh] ∧
  (∀ t, clients t (exec (ListenTCP false arrivals) h) = clients t h) ∧
  (ListenWS [] h).1 = Returned ∧
  since h (exec (ListenWS []) h)
  = [ALog LogListening; ALog LogServeError; ACloseErrCh].
Proof.
  split_and!.
  - reflexivity.
  - apply since_app. unfold exec. simpl. by rewrite <- !app_assoc.
  - intros []; reflexivity.
  - reflexivity.
  - apply since_app. unfold exec. simpl. by rewrite <- !app_assoc.
Qed.

End hub_properties.

Lemma broadcast_isolates_failures_witness :
  isolates hub.TCP (hub.tcp_data (sample.status 5 0 120 0)) sample.switchboard
    (hub.exec (hub.BroadcastToTCPClients sample.runtime (sample.status 5 0 120 0))
       sample.switchboard) ∧
  (∀ msg, hub.json_Marshal sample.runtime (sample.status 5 0 120 0) = Some msg →
          isolates hub.WS msg sample.switchboard
            (hub.exec (hub.BroadcastToWsClients sample.runtime (sample.status 5 0 120 0))
               sample.switchboard)) ∧
  (∀ t c ss,
     c ∈ hub.failed t
           (hub.since sample.switchboard
              (hub.exec (hub.Broadcast sample.runtime (sample.status 5 0 120 0))
                 sample.switchboard)) →
     c ∉ hub.written t
           (hub.since
              (hub.exec (hub.Broadcast sample.runtime (sample.status 5 0 120 0))
                 sample.switchboard)
              (hub.exec (hub.broadcasts sample.runtime ss)
                 (hub.exec (hub.Broadcast sample.runtime (sample.status 5 0 120 0))
                    sample.switchboard)))).
Proof.
  apply (broadcast_isolates_failures sample.runtime (sample.status 5 0 120 0)
           sample.switchboard).
  intros tr l. reflexivity.
Defined.

(** The sample hub, run: client 2 fails on both transports and is gone
    afterwards; a second broadcast reaches the others only. *)
Example broadcast_sample :
  let s := sample.status 5 0 120 0 in
  let h1 := hub.exec (hub.Broadcast sample.runtime s) sample.switchboard in
  let h2 := hub.exec (hub.Broadcast sample.runtime s) h1 in
  hub.written hub.TCP (hub.trace h1) = [3; 2; 1]%positive ∧
  hub.failed hub.TCP (hub.trace h1) = [2]%positive ∧
  hub.closed hub.TCP (hub.trace h1) = [2]%positive ∧
  hub.keys (hub.tcpClients h1) = [3; 1]%positive ∧
  hub.keys (hub.wsClients h1) = [4]%positive ∧
  hub.received hub.TCP 3%positive (hub.trace h2) = [hub.tcp_data s; hub.tcp_data s] ∧
  hub.received hub.TCP 2%positive (hub.trace h2) = [] ∧
  hub.written hub.TCP (hub.since h1 h2) = [3; 1]%positive.
Proof. vm_compute. repeat split. Qed.

(* ===================================================================== *)
(** ** More on the hub: removal, delivery, the mutex, listeners          *)
(* ===================================================================== *)

Section hub_more.

Import hub traces.
Local Open Scope hub_scope.

Variable rt : runtime.

(** *** Removal *)

Lemma RemoveClient_spec (t : transport) (c : ptr) (h : Hub) :
  trace (exec (RemoveClient (t, c)) h) = trace h ++
    [ALock; AMapLookup t c] ++
    (match clients t h !! c with Some _ => [AMapDelete t c] | None => [] end) ++
    [AClose t c; ALog (LogDisconnected t c); AUnlock] ∧
  clients t (exec (RemoveClient (t, c)) h) = delete c (clients t h) ∧
  (∀ t', t' ≠ t → clients t' (exec (RemoveClient (t, c)) h) = clients t' h).
Proof.
  destruct t; unfold RemoveClient.
  - destruct (RemoveTCPClient_spec c h) as (Htr & Htcp & Hws).
    split_and!; [done|done|]. by intros [].
  - destruct (RemoveWsClient_spec c h) as (Htr & Hws & Htcp).
    split_and!; [done|done|]. by intros [].
Qed.

Lemma AddClient_spec (t : transport) (c : ptr) (h : Hub) :
  (∃ pre, trace (exec (AddClient (t, c)) h) = trace h ++
     pre ++ [AMapStore t c; ALog (LogConnected t c); AGoListen t c] ++
     (match t with TCP => [AUnlock] | WS => [] end) ∧
     Forall (fun a => a = ALock ∨ a = AMapLookup t c ∨ a = AMapDelete t c) pre) ∧
  clients t (exec (AddClient (t, c)) h) = <[c:=true]> (clients t h) ∧
  (∀ t', t' ≠ t → clients t' (exec (AddClient (t, c)) h) = clients t' h).
Proof.
  destruct t; unfold AddClient.
  - destruct (AddTCPClient_spec c h) as (Htr & Htcp & Hws).
    split_and!; [|done|by intros []].
    exists ([ALock; AMapLookup TCP c] ++
            match tcpClients h !! c with Some _ => [AMapDelete TCP c] | None => [] end).
    split; [by rewrite Htr, <- !app_assoc|].
    destruct (_ !! _); repeat first [apply Forall_nil_2 | apply Forall_cons_2]; auto.
  - destruct (AddWsClient_spec c h) as (Htr & Hws & Htcp).
    split_and!; [|done|by intros []].
    exists ([AMapLookup WS c] ++
            match wsClients h !! c with Some _ => [AMapDelete WS c] | None => [] end).
    split; [by rewrite Htr, <- !app_assoc, app_nil_r|].
    destruct (_ !! _); repeat first [apply Forall_nil_2 | apply Forall_cons_2]; auto.
Qed.

(** X1: removal deletes the entry of the client when there is one, and
    closes the connection whether there was one or not. *)
Theorem remove_closes (t : transport) (c : ptr) (h : Hub) :
  let h' := exec (RemoveClient (t, c)) h in
  clients t h' = delete c (clients t h) ∧
  (clients t h !! c = None → clients t h' = clients t h) ∧
  (∀ t', t' ≠ t → clients t' h' = clients t' h) ∧
  closed t (since h h') = [c] ∧
  (∀ t', t' ≠ t → closed t' (since h h') = []) ∧
  (∀ t', written t' (since h h') = []).
Proof.
  intros h'. subst h'.
  destruct (RemoveClient_spec t c h) as (Htr & Hcl & Hoth).
  rewrite (since_app _ _ _ Htr).
  split_and!; [done| |done| | |].
  - intros Hc. rewrite Hcl. by apply delete_id.
  - destruct t, (_ !! _); reflexivity.
  - intros t' Ht. destruct t, t', (_ !! _); done.
  - intros t'. destruct t, t', (_ !! _); done.
Qed.


(** X2: registering a client that was not registered and removing it again
    gives back both registries. *)
Theorem add_remove_round_trip (t : transport) (c : ptr) (h : Hub) :
  clients t h !! c = None →
  ∀ t', clients t' (exec (AddClient (t, c) >> RemoveClient (t, c)) h) = clients t' h.
Proof.
  intros Hc t'. rewrite exec_bind. fold (exec (AddClient (t, c)) h).
  destruct (AddClient_spec t c h) as (_ & Hadd & Hadd').
  destruct (RemoveClient_spec t c (exec (AddClient (t, c)) h)) as (_ & Hrem & Hrem').
  destruct (decide (t' = t)) as [->|Hne].
  - rewrite Hrem, Hadd, delete_insert_eq. by apply delete_id.
  - rewrite Hrem', Hadd' by done. done.
Qed.

(** Traces only grow. *)
Lemma grows_since (h h' : Hub) (d : list action) :
  trace h' = trace h ++ d → trace h' = trace h ++ since h h'.
Proof. intros H. by rewrite (since_app _ _ _ H). Qed.

Lemma handleClose_cons (t : transport) (c : ptr) (rest : list (transport * ptr)) :
  handleClose ((t, c) :: rest) = (RemoveClient (t, c) >> handleClose rest).
Proof. by destruct t. Qed.

(** X3: [handleClose] unregisters and closes every client that arrives on
    the close channels, in order of arrival, and leaves the others alone. *)
Theorem handleClose_removes (arrivals : list (transport * ptr)) (h : Hub)
    (t : transport) (c : ptr) :
  let h' := exec (handleClose arrivals) h in
  clients t h' !! c = (if decide ((t, c) ∈ arrivals) then None else clients t h !! c) ∧
  closed t (since h h') = (filter (fun a => a.1 = t) arrivals).*2 ∧
  written t (since h h') = [] ∧
  trace h' = trace h ++ since h h'.
Proof.
  revert h. induction arrivals as [|[t0 c0] rest IH]; intros h h'; subst h'.
  - change (exec (handleClose []) h) with h.
    assert (since h h = []) as -> by (apply since_app; by rewrite app_nil_r).
    rewrite app_nil_r. split_and!; done.
  - rewrite handleClose_cons, exec_bind. fold (exec (RemoveClient (t0, c0)) h).
    set (h1 := exec (RemoveClient (t0, c0)) h).
    destruct (RemoveClient_spec t0 c0 h) as (Htr1 & Hcl & Hoth). fold h1 in Htr1, Hcl, Hoth.
    destruct (IH h1) as (Hlook & Hclosed & Hwr & Htr2).
    destruct (since_trans h h1 _ (grows_since _ _ _ Htr1) Htr2) as [Htr Hs].
    split_and!; [| | |done].
    + rewrite Hlook.
      destruct (decide ((t, c) = (t0, c0))) as [[= -> ->]|Hne].
      * rewrite Hcl, lookup_delete_eq.
        rewrite (decide_True (P := (t0, c0) ∈ (t0, c0) :: rest)) by set_solver.
        by case_decide.
      * assert (clients t h1 !! c = clients t h !! c) as ->.
        { destruct (decide (t = t0)) as [->|Ht].
          - rewrite Hcl, lookup_delete_ne; [done|]. congruence.
          - by rewrite Hoth. }
        destruct (decide ((t, c) ∈ rest)).
        -- rewrite decide_True; [done|]. set_solver.
        -- rewrite decide_False; [done|]. set_solver.
    + rewrite Hs, closed_app, Hclosed, (since_app _ _ _ Htr1).
      rewrite filter_cons. simpl.
      destruct (clients t0 h !! c0); destruct (decide (t0 = t)) as [->|Hne];
        destruct t; try destruct t0; done.
    + rewrite Hs, written_app, Hwr, (since_app _ _ _ Htr1).
      destruct (clients t0 h !! c0); destruct t0, t; done.
Qed.

Lemma occurrences_app (a : action) (d1 d2 : list action) :
  occurrences a (d1 ++ d2) = (occurrences a d1 + occurrences a d2)%nat.
Proof. unfold occurrences. by rewrite filter_app, length_app. Qed.

Lemma occurrences_none (a : action) (d : list action) :
  a ∉ d → occurrences a d = 0%nat.
Proof.
  intros Ha. unfold occurrences.
  induction d as [|x d IH]; [done|].
  rewrite filter_cons. rewrite decide_False by set_solver.
  apply IH. set_solver.
Qed.

(** X4: every registration starts one goroutine reading from the client,
    also when the client was registered already. *)
Theorem add_starts_listener (calls : list (transport * ptr)) (t : transport) (c : ptr) :
  ∀ h, occurrences (AGoListen t c) (since h (exec (add_all calls) h))
       = length (filter (fun x => x = (t, c)) calls) ∧
       trace (exec (add_all calls) h) = trace h ++ since h (exec (add_all calls) h).
Proof.
  induction calls as [|[t0 c0] rest IH]; intros h.
  - change (exec (add_all []) h) with h.
    assert (since h h = []) as -> by (apply since_app; by rewrite app_nil_r).
    by rewrite app_nil_r.
  - cbn [add_all]. rewrite exec_bind. fold (exec (AddClient (t0, c0)) h).
    set (h1 := exec (AddClient (t0, c0)) h).
    destruct (AddClient_spec t0 c0 h) as ((pre & Htr1 & Hpre) & _). fold h1 in Htr1.
    destruct (IH h1) as (Hocc & Htr2).
    destruct (since_trans h h1 _ (grows_since _ _ _ Htr1) Htr2) as [Htr Hs].
    split; [|done].
    rewrite Hs, occurrences_app, Hocc, (since_app _ _ _ Htr1), !occurrences_app.
    rewrite (occurrences_none _ pre).
    2:{ intros Hin. eapply Forall_forall in Hpre; [|done]. naive_solver. }
    rewrite filter_cons.
    destruct (decide ((t0, c0) = (t, c))) as [[= -> ->]|Hne].
    + assert (occurrences (AGoListen t c)
                [AMapStore t c; ALog (LogConnected t c); AGoListen t c] = 1%nat) as ->.
      { unfold occurrences.
        rewrite filter_cons, decide_False by done.
        rewrite filter_cons, decide_False by done.
        rewrite filter_cons, decide_True by done. done. }
      rewrite (occurrences_none _ (match t with TCP => _ | WS => _ end)).
      * simpl. lia.
      * destruct t; set_solver.
    + assert (occurrences (AGoListen t c)
                [AMapStore t0 c0; ALog (LogConnected t0 c0); AGoListen t0 c0] = 0%nat) as ->.
      { apply occurrences_none. set_solver. }
      rewrite (occurrences_none _ (match t0 with TCP => _ | WS => _ end)).
      * simpl. lia.
      * destruct t0; set_solver.
Qed.


(** *** Passes, without assumption on the order of [range] *)

Lemma send_all_failed (t : transport) (data : string) (cs : list ptr) :
  ∀ h c, c ∈ failed t (since h (exec (send_all rt t data cs) h)) →
         ∃ tr, write_fails rt tr t c data = true.
Proof.
  induction cs as [|c0 rest IH]; intros h c.
  - change (exec (send_all rt t data []) h) with h.
    assert (since h h = []) as -> by (apply since_app; by rewrite app_nil_r).
    set_solver.
  - destruct (send_all_cons rt t data c0 rest h) as (h1 & -> & Htr1 & _).
    destruct (send_all_spec rt t data rest h1) as (d & Hd & _).
    rewrite (since_app h _ (_ ++ d)) by (by rewrite Hd, Htr1, <- app_assoc).
    rewrite failed_app. intros [Hin|Hin]%elem_of_app.
    + destruct (write_fails rt (trace h) t c0 data) eqn:Hf.
      * assert (c = c0) as -> by (destruct t; set_solver). eauto.
      * destruct t; set_solver.
    + apply (IH h1). by rewrite (since_app _ _ _ Hd).
Qed.

Lemma pass_shape (t : transport) (data : string) (h : Hub) :
  ∃ d, pass rt t data h
         (exec Unlock
            (exec (let* cs := map_range rt t in send_all rt t data cs) (exec Lock h))) d.
Proof.
  rewrite exec_bind. unfold map_range at 1 2. simpl.
  set (h0 := exec (emit (AMapRange t)) (exec Lock h)).
  set (cs := range_order rt _ _).
  destruct (send_all_spec rt t data cs h0) as (d & Hd & Hw & Hclo & Hall & Hoth & Hlook & _).
  exists d. unfold pass. split_and!; try done.
  - unfold Unlock. rewrite trace_emit, Hd. unfold h0, Lock.
    rewrite !trace_emit. by rewrite <- !app_assoc.
  - intros c Hc. apply (send_all_failed t data cs h0 c).
    by rewrite (since_app _ _ _ Hd).
Qed.

Lemma BroadcastToTCPClients_pass (s : rotator.Status.t) (h : Hub) :
  ∃ d, pass rt TCP (tcp_data s) h (exec (BroadcastToTCPClients rt s) h) d.
Proof.
  unfold BroadcastToTCPClients. rewrite exec_locked. apply pass_shape.
Qed.

Lemma BroadcastToWsClients_pass (s : rotator.Status.t) (msg : string) (h : Hub) :
  json_Marshal rt s = Some msg →
  ∃ d, pass rt WS msg h (exec (BroadcastToWsClients rt s) h) d.
Proof.
  intros Hmsg. unfold BroadcastToWsClients. rewrite Hmsg, exec_locked.
  destruct (pass_shape WS msg h) as (d & Hd). exists d.
  replace (exec (let* cs := map_range rt WS in send_all rt WS msg cs >> ret false)
             (exec Lock h))
    with (exec (let* cs := map_range rt WS in send_all rt WS msg cs) (exec Lock h)); [done|].
  unfold exec, bind. simpl. by destruct (send_all _ _ _ _ _).
Qed.


Lemma loop_other (t t' : transport) (data : string) (c : ptr) (d : list action) :
  Forall (loop_action t data) d → t' ≠ t →
  written t' d = [] ∧ failed t' d = [] ∧ closed t' d = [] ∧ received t' c d = [].
Proof.
  intros Hall Ht. induction Hall as [|a d Ha _ (IH1 & IH2 & IH3 & IH4)]; [done|].
  unfold written, failed, closed, received in *.
  destruct a; simpl in Ha; try contradiction; simpl;
    [subst | destruct Ha as [-> ->]; destruct failed0 | subst | ];
    rewrite ?decide_False by (try intros [? ?]; congruence); done.
Qed.

(** What happened since [h] in a pass, read per transport. *)
Lemma pass_since (t : transport) (data : string) (h h' : Hub) (d : list action) :
  pass rt t data h h' d →
  since h h' = [ALock; AMapRange t] ++ d ++ [AUnlock] ∧
  trace h' = trace h ++ since h h' ∧
  failed t (since h h') = failed t d ∧
  closed t (since h h') = closed t d ∧
  (∀ t' c, t' ≠ t →
     written t' (since h h') = [] ∧ failed t' (since h h') = [] ∧
     closed t' (since h h') = [] ∧ received t' c (since h h') = []).
Proof.
  intros (Htr & Hall & _).
  rewrite (since_app _ _ _ Htr).
  assert (Forall silent [ALock; AMapRange t]) as Hpre by (repeat constructor).
  assert (Forall silent [AUnlock]) as Hpost by (repeat constructor).
  split_and!; try done.
  - by destruct (frame_quiet t 1%positive _ d _ Hpre Hpost) as (_ & -> & _).
  - by destruct (frame_quiet t 1%positive _ d _ Hpre Hpost) as (_ & _ & -> & _).
  - intros t' c Ht.
    destruct (frame_quiet t' c _ d _ Hpre Hpost) as (-> & -> & -> & ->).
    by apply (loop_other t t' data).
Qed.

(** What [Broadcast] is made of: the pass over the TCP clients, then the
    pass over the websocket clients or, when the status cannot be
    marshalled, a locked nothing and a log line. *)
Lemma Broadcast_shape (s : rotator.Status.t) (h : Hub) :
  let ha := exec (BroadcastToTCPClients rt s) h in
  let h1 := exec (Broadcast rt s) h in
  ∃ da, pass rt TCP (tcp_data s) h ha da ∧
        match json_Marshal rt s with
        | Some msg => ∃ db, pass rt WS msg ha h1 db
        | None => trace h1 = trace ha ++ [ALock; AUnlock; ALog LogMarshalError] ∧
                  ∀ t, clients t h1 = clients t ha
        end.
Proof.
  intros ha h1. subst h1. unfold Broadcast. rewrite !exec_bind.
  fold (exec (BroadcastToTCPClients rt s) h). fold ha.
  fold (exec (BroadcastToWsClients rt s) ha).
  destruct (BroadcastToTCPClients_pass s h) as (da & Hda). fold ha in Hda.
  exists da. split; [done|].
  destruct (json_Marshal rt s) as [msg|] eqn:Hmsg.
  - destruct (BroadcastToWsClients_pass s msg ha Hmsg) as (db & Hdb).
    exists db.
    assert ((BroadcastToWsClients rt s ha).1 = false) as ->.
    { unfold BroadcastToWsClients. rewrite Hmsg. unfold defer, bind. simpl.
      by destruct (send_all _ _ _ _ _). }
    done.
  - destruct (BroadcastToWsClients_marshal_error rt s ha Hmsg) as (-> & Htr & Hcl).
    unfold log. rewrite trace_emit, Htr, <- app_assoc. split; [done|].
    intros t. by rewrite clients_emit.
Qed.

(** One [Broadcast] reaches a registered client whose writes never fail
    with one message, and leaves it registered. *)
Lemma Broadcast_delivers (s : rotator.Status.t) (h : Hub) (t : transport) (c : ptr) :
  fair rt → never_fails rt t c → is_Some (clients t h !! c) →
  received t c (since h (exec (Broadcast rt s) h)) = pushed rt t s ∧
  is_Some (clients t (exec (Broadcast rt s) h) !! c) ∧
  trace (exec (Broadcast rt s) h) = trace h ++ since h (exec (Broadcast rt s) h).
Proof.
  intros Hfair Hnf Hc.
  destruct (Broadcast_shape s h) as (da & Hda & Hb).
  set (ha := exec (BroadcastToTCPClients rt s) h) in *.
  set (h1 := exec (Broadcast rt s) h) in *.
  destruct (BroadcastToTCPClients_isolates rt s h Hfair) as [Hia _]. fold ha in Hia.
  destruct (pass_since _ _ _ _ _ Hda) as (_ & Htra & Hfa & _ & Hoa).
  assert (∀ data d, (∀ c', c' ∈ failed t d → ∃ tr, write_fails rt tr t c' data = true) →
                    c ∉ failed t d) as Hnever.
  { intros data d Hor Hin. destruct (Hor c Hin) as [tr Htr]. by rewrite Hnf in Htr. }
  destruct (json_Marshal rt s) as [msg|] eqn:Hmsg.
  - destruct Hb as (db & Hdb).
    destruct (BroadcastToWsClients_isolates rt s msg ha Hfair Hmsg) as (_ & Hib & _).
    assert (exec (BroadcastToWsClients rt s) ha = h1) as Heq.
    { unfold h1, Broadcast. rewrite !exec_bind.
      fold (exec (BroadcastToTCPClients rt s) h). fold ha.
      assert ((BroadcastToWsClients rt s ha).1 = false) as ->.
      { unfold BroadcastToWsClients. rewrite Hmsg. unfold defer, bind. simpl.
        by destruct (send_all _ _ _ _ _). }
      done. }
    rewrite Heq in Hib.
    destruct (pass_since _ _ _ _ _ Hdb) as (_ & Htrb & Hfb & _ & Hob).
    destruct (since_trans h ha h1 Htra Htrb) as [Htr Hs].
    rewrite Hs at 1. rewrite received_app.
    destruct Hda as (_ & _ & _ & Hla & Hotha & Hora).
    destruct Hdb as (_ & _ & _ & Hlb & Hothb & Horb).
    destruct Hia as (_ & _ & _ & Hreca & _).
    destruct Hib as (_ & _ & _ & Hrecb & _).
    destruct t; unfold pushed; rewrite ?Hmsg.
    + destruct (Hob TCP c) as (_ & _ & _ & ->); [done|].
      rewrite app_nil_r, Hreca; [|done|rewrite Hfa; by eapply Hnever].
      split_and!; [done| |done].
      rewrite Hothb by done. rewrite Hla, decide_False; [done|by eapply Hnever].
    + destruct (Hoa WS c) as (_ & _ & _ & ->); [done|].
      assert (is_Some (clients WS ha !! c)) as Hc' by (by rewrite Hotha).
      rewrite Hrecb; [|done|rewrite Hfb; by eapply Hnever].
      split_and!; [done| |done].
      rewrite Hlb, decide_False; [done|by eapply Hnever].
  - destruct Hb as (Htrb & Hclb).
    pose proof (grows_since _ _ _ Htrb) as Htrb'.
    destruct (since_trans h ha h1 Htra Htrb') as [Htr Hs].
    rewrite Hs at 1. rewrite (since_app _ _ _ Htrb), received_app, app_nil_r.
    destruct Hda as (_ & _ & _ & Hla & Hotha & Hora).
    destruct Hia as (_ & _ & _ & Hreca & _).
    destruct t; unfold pushed; rewrite ?Hmsg.
    + rewrite Hreca; [|done|rewrite Hfa; by eapply Hnever].
      split_and!; [done| |done].
      rewrite Hclb, Hla, decide_False; [done|by eapply Hnever].
    + destruct (Hoa WS c) as (_ & _ & _ & ->); [done|].
      split_and!; [done| |done].
      rewrite Hclb, Hotha; done.
Qed.

(** X5: a registered client whose writes never fail receives one message
    for every broadcast, in the order of the broadcasts: the push line on
    TCP, the marshalled status on a websocket (nothing for a status that
    cannot be marshalled). *)
Theorem broadcasts_in_order (ss : list rotator.Status.t) (t : transport) (c : ptr) :
  fair rt → never_fails rt t c →
  ∀ h, is_Some (clients t h !! c) →
       received t c (since h (exec (broadcasts rt ss) h)) = concat (map (pushed rt t) ss) ∧
       is_Some (clients t (exec (broadcasts rt ss) h) !! c) ∧
       trace (exec (broadcasts rt ss) h) = trace h ++ since h (exec (broadcasts rt ss) h).
Proof.
  intros Hfair Hnf. induction ss as [|s ss IH]; intros h Hc.
  - change (exec (broadcasts rt []) h) with h.
    assert (since h h = []) as -> by (apply since_app; by rewrite app_nil_r).
    by rewrite app_nil_r.
  - cbn [broadcasts]. rewrite exec_bind. fold (exec (Broadcast rt s) h).
    destruct (Broadcast_delivers s h t c Hfair Hnf Hc) as (Hrec1 & Hc1 & Htr1).
    destruct (IH _ Hc1) as (Hrec2 & Hc2 & Htr2).
    destruct (since_trans _ _ _ Htr1 Htr2) as [Htr Hs].
    rewrite Hs at 1. rewrite received_app, Hrec1, Hrec2. done.
Qed.


(** *** The mutex over sequences of calls *)

Lemma serialized_from_app (b : bool) (d1 d2 : list action) :
  serialized_from b d1 = true →
  serialized_from b (d1 ++ d2) = serialized_from false d2.
Proof.
  revert b. induction d1 as [|a d1 IH]; intros b H.
  - destruct b; [discriminate|done].
  - destruct a, b; simpl in *; try discriminate; by apply IH.
Qed.

Lemma pass_serialized (t : transport) (data : string) (d rest : list action) :
  Forall (loop_action t data) d →
  serialized ([ALock; AMapRange t] ++ d ++ [AUnlock] ++ rest) = serialized rest.
Proof.
  intros Hall. unfold serialized. simpl.
  by rewrite (loop_action_serialized t data).
Qed.

Lemma calls_nil (h : Hub) : since h (exec (calls rt []) h) = [].
Proof.
  change (exec (calls rt []) h) with h.
  apply since_app. by rewrite app_nil_r.
Qed.

Lemma Broadcast_trace (s : rotator.Status.t) (h : Hub) :
  ∃ da dw, trace (exec (Broadcast rt s) h)
           = trace h ++ ([ALock; AMapRange TCP] ++ da ++ [AUnlock]) ++ dw ∧
           Forall (loop_action TCP (tcp_data s)) da ∧
           serialized dw = true.
Proof.
  destruct (Broadcast_shape s h) as (da & Hda & Hb).
  destruct Hda as (Htra & Halla & _).
  destruct (json_Marshal rt s) as [msg|].
  - destruct Hb as (db & Htrb & Hallb & _).
    exists da, ([ALock; AMapRange WS] ++ db ++ [AUnlock]).
    split_and!; [by rewrite Htrb, Htra, <- !app_assoc|done|].
    unfold serialized. simpl.
    by rewrite (loop_action_serialized WS msg).
  - destruct Hb as (Htrb & _).
    exists da, [ALock; AUnlock; ALog LogMarshalError].
    split_and!; [by rewrite Htrb, Htra, <- !app_assoc|done|done].
Qed.

(** What one call appends to the trace. *)
Lemma call_trace (a : api) (h : Hub) :
  trace (exec (call rt a) h) = trace h ++ since h (exec (call rt a) h) ∧
  ∀ rest, serialized_from false (since h (exec (call rt a) h) ++ rest)
          = negb (is_AddWs a) && serialized_from false rest.
Proof.
  destruct a as [c|c|c|c|s]; simpl.
  - destruct (AddTCPClient_spec c h) as (Htr & _).
    rewrite (since_app _ _ _ Htr). split; [done|]. by destruct (_ !! _).
  - destruct (AddWsClient_spec c h) as (Htr & _).
    rewrite (since_app _ _ _ Htr). split; [done|]. by destruct (_ !! _).
  - destruct (RemoveTCPClient_spec c h) as (Htr & _).
    rewrite (since_app _ _ _ Htr). split; [done|]. by destruct (_ !! _).
  - destruct (RemoveWsClient_spec c h) as (Htr & _).
    rewrite (since_app _ _ _ Htr). split; [done|]. by destruct (_ !! _).
  - destruct (Broadcast_trace s h) as (da & dw & Htr & Hall & Hdw).
    rewrite (since_app _ _ _ Htr). split; [done|]. intros rest.
    rewrite <- !app_assoc.
    rewrite (pass_serialized TCP (tcp_data s)) by done.
    by apply serialized_from_app.
Qed.

(** X6: a sequence of calls keeps the lock discipline (the mutex is never
    taken while held, every map access happens under it) exactly when no
    websocket client is registered in it. *)
Theorem calls_serialized (l : list api) :
  ∀ h, serialized (since h (exec (calls rt l) h)) = forallb (fun a => negb (is_AddWs a)) l ∧
       trace (exec (calls rt l) h) = trace h ++ since h (exec (calls rt l) h).
Proof.
  induction l as [|a l IH]; intros h.
  - rewrite calls_nil, app_nil_r. done.
  - cbn [calls forallb]. rewrite exec_bind. fold (exec (call rt a) h).
    destruct (call_trace a h) as (Htr1 & Hser1).
    destruct (IH (exec (call rt a) h)) as (Hser2 & Htr2).
    destruct (since_trans _ _ _ Htr1 Htr2) as [Htr Hs].
    split; [|done]. rewrite Hs. unfold serialized in *.
    by rewrite Hser1, Hser2.
Qed.

(** *** Registered means stored since the last close *)







(** X8: when the status cannot be marshalled, [Broadcast] has served the TCP
    clients all the same, writes to no websocket client, leaves the
    websocket registry as it is and logs the error. *)
Theorem Broadcast_marshal_error (s : rotator.Status.t) (h : Hub) :
  fair rt →
  json_Marshal rt s = None →
  let h1 := exec (Broadcast rt s) h in
  (BroadcastToWsClients rt s (exec (BroadcastToTCPClients rt s) h)).1 = true ∧
  written TCP (since h h1) ≡ₚ keys (tcpClients h) ∧
  written WS (since h h1) = [] ∧
  closed WS (since h h1) = [] ∧
  wsClients h1 = wsClients h ∧
  ALog LogMarshalError ∈ since h h1.
Proof.
  intros Hfair Hmsg h1. subst h1.
  destruct (Broadcast_shape s h) as (da & Hda & Hb).
  rewrite Hmsg in Hb. destruct Hb as (Htrb & Hclb).
  set (ha := exec (BroadcastToTCPClients rt s) h) in *.
  destruct (BroadcastToTCPClients_isolates rt s h Hfair) as [Hia _]. fold ha in Hia.
  destruct (pass_since _ _ _ _ _ Hda) as (_ & Htra & _ & _ & Hoa).
  destruct (since_trans h ha _ Htra (grows_since _ _ _ Htrb)) as [_ ->].
  rewrite (since_app _ _ _ Htrb).
  destruct (Hoa WS 1%positive) as (Hw & _ & Hc & _); [done|].
  destruct Hia as (_ & Hperm & _).
  destruct Hda as (_ & _ & _ & _ & Hoth & _).
  split_and!.
  - by destruct (BroadcastToWsClients_marshal_error rt s ha Hmsg) as (-> & _).
  - rewrite written_app. simpl. by rewrite app_nil_r.
  - by rewrite written_app, Hw.
  - by rewrite closed_app, Hc.
  - change (wsClients ?x) with (clients WS x). rewrite Hclb. by apply Hoth.
  - set_solver.
Qed.

(** *** Listeners *)

Lemma accept_loop_spec (arrivals : list (bool * ptr)) :
  ∀ h, ∃ d, trace (exec (accept_loop arrivals) h) = trace h ++ d ∧
            (∀ c, tcpClients (exec (accept_loop arrivals) h) !! c
                  = if decide (c ∈ arrivals.*2) then Some true else tcpClients h !! c) ∧
            wsClients (exec (accept_loop arrivals) h) = wsClients h ∧
            (ACloseErrCh ∉ d) ∧ (AListenerClose ∉ d) ∧
            occurrences (ALog LogAcceptError) d
            = length (filter (fun a => a.1 = false) arrivals).
Proof.
  induction arrivals as [|[ok c0] rest IH]; intros h.
  - exists []. rewrite app_nil_r. split_and!; try done; set_solver.
  - cbn [accept_loop]. rewrite !exec_bind.
    set (h0 := ((if ok then ret () else log LogAcceptError)
                  (emit (AAccept ok) h).2).2).
    assert (trace h0 = trace h ++ AAccept ok :: (if ok then [] else [ALog LogAcceptError]) ∧
            tcpClients h0 = tcpClients h ∧ wsClients h0 = wsClients h) as (Htr0 & Htcp0 & Hws0).
    { unfold h0. destruct ok; simpl; rewrite <- ?app_assoc; done. }
    fold (exec (AddTCPClient c0) h0).
    destruct (AddTCPClient_spec c0 h0) as (Htr1 & Htcp1 & Hws1).
    destruct (IH (exec (AddTCPClient c0) h0)) as (d & Hd & Hlook & Hws & Hno & Hno' & Hocc).
    eexists. split; [rewrite Hd, Htr1, Htr0, <- !app_assoc; reflexivity|].
    split_and!.
    + intros c. rewrite Hlook, Htcp1, Htcp0. cbn [fmap list_fmap snd].
      destruct (decide (c = c0)) as [->|Hne].
      * rewrite lookup_insert_eq.
        rewrite (decide_True (P := c0 ∈ c0 :: rest.*2)) by set_solver.
        by case_decide.
      * rewrite lookup_insert_ne by done.
        destruct (decide (c ∈ rest.*2)).
        -- by rewrite decide_True by set_solver.
        -- by rewrite decide_False by set_solver.
    + by rewrite Hws, Hws1, Hws0.
    + destruct ok, (tcpClients h0 !! c0); set_solver.
    + destruct ok, (tcpClients h0 !! c0); set_solver.
    + rewrite filter_cons. cbn [fst].
      rewrite !occurrences_app, Hocc.
      assert (∀ l, Forall (fun a => a ≠ ALog LogAcceptError) l →
                   occurrences (ALog LogAcceptError) l = 0%nat) as Hzero.
      { intros l Hl. apply occurrences_none. intros Hin.
        by eapply Forall_forall in Hl. }
      rewrite (Hzero [ALock; AMapLookup TCP c0]) by (repeat constructor; done).
      rewrite (Hzero (match tcpClients h0 !! c0 with Some _ => _ | None => _ end))
        by (destruct (_ !! _); repeat constructor; done).
      rewrite (Hzero [AMapStore TCP c0; ALog (LogConnected TCP c0); AGoListen TCP c0; AUnlock])
        by (repeat constructor; done).
      destruct ok.
      * rewrite decide_False by done.
        rewrite (Hzero [AAccept true]) by (repeat constructor; done). done.
      * rewrite decide_True by done.
        assert (occurrences (ALog LogAcceptError) [AAccept false; ALog LogAcceptError]
                = 1%nat) as ->.
        { unfold occurrences. rewrite filter_cons, decide_False by done.
          rewrite filter_cons, decide_True by done. done. }
        simpl. lia.
Qed.

(** X9: with a listener and accepts that succeed, [ListenTCP] registers a
    client for every connection accepted; it stays in its loop, closes
    neither the error channel nor the listener, and leaves the websocket
    registry alone. *)
Theorem ListenTCP_serving (arrivals : list (bool * ptr)) (h : Hub) :
  Forall (fun a => a.1 = true) arrivals →
  let h' := exec (ListenTCP true arrivals) h in
  (ListenTCP true arrivals h).1 = Serving ∧
  (∀ c, tcpClients h' !! c
        = if decide (c ∈ arrivals.*2) then Some true else tcpClients h !! c) ∧
  wsClients h' = wsClients h ∧
  (ACloseErrCh ∉ since h h') ∧
  (AListenerClose ∉ since h h') ∧
  occurrences (ALog LogAcceptError) (since h h') = 0%nat.
Proof.
  intros Hok h'. subst h'.
  assert (filter (fun a : bool * ptr => a.1 = false) arrivals = []) as Hfil.
  { induction Hok as [|[ok c] l Ha _ IH]; [done|].
    simpl in Ha. subst ok. rewrite filter_cons, decide_False by done. exact IH. }
  assert ((ListenTCP true arrivals h).1 = Serving) as Hexit.
  { unfold ListenTCP, bind. simpl. by destruct (accept_loop arrivals _). }
  split; [done|].
  set (h0 := exec (log LogListening) (exec (emit (ANetListen true)) h)).
  assert (exec (ListenTCP true arrivals) h = exec (accept_loop arrivals) h0) as ->.
  { unfold exec, ListenTCP, bind. simpl. by destruct (accept_loop arrivals _). }
  destruct (accept_loop_spec arrivals h0) as (d & Hd & Hlook & Hws & Hno & Hno' & Hocc).
  assert (trace (exec (accept_loop arrivals) h0)
          = trace h ++ [ANetListen true; ALog LogListening] ++ d) as Htr.
  { rewrite Hd. unfold h0, log. rewrite !trace_emit. by rewrite <- !app_assoc. }
  rewrite (since_app _ _ _ Htr).
  split_and!; [done|done| | |].
  - set_solver.
  - set_solver.
  - rewrite occurrences_app, Hocc.
    rewrite occurrences_none by set_solver. by rewrite Hfil.
Qed.



End hub_more.

Section push_line_more.

Import hub.

(** X11: for headings between 0 and 999 the push line has twelve bytes and
    tells azimuth and elevation apart: two statuses with the same line have
    the same azimuth and the same elevation. *)
Theorem tcp_data_injective (s1 s2 : rotator.Status.t) :
  0 ≤ rotator.Status.Azimuth s1 ≤ 999 → 0 ≤ rotator.Status.Elevation s1 ≤ 999 →
  0 ≤ rotator.Status.Azimuth s2 ≤ 999 → 0 ≤ rotator.Status.Elevation s2 ≤ 999 →
  String.length (tcp_data s1) = 12%nat ∧
  (tcp_data s1 = tcp_data s2 →
   rotator.Status.Azimuth s1 = rotator.Status.Azimuth s2 ∧
   rotator.Status.Elevation s1 = rotator.Status.Elevation s2).
Proof.
  intros Ha1 He1 Ha2 He2. unfold tcp_data.
  destruct (fmt_d3_three_digits _ Ha1) as (a1 & b1 & c1 & -> & _ & _ & _ & <-).
  destruct (fmt_d3_three_digits _ He1) as (x1 & y1 & z1 & -> & _ & _ & _ & <-).
  destruct (fmt_d3_three_digits _ Ha2) as (a2 & b2 & c2 & -> & _ & _ & _ & <-).
  destruct (fmt_d3_three_digits _ He2) as (x2 & y2 & z2 & -> & _ & _ & _ & <-).
  split; [reflexivity|].
  simpl. intros [= -> -> -> -> -> ->]. done.
Qed.

End push_line_more.

(* ===================================================================== *)
(** ** More on the proxy: construction, the receive loop, commands       *)
(* ===================================================================== *)

Section proxy_more.

Import proxy streams.

Variable net : network.

(** *** Construction *)

Lemma getInfo_cases (r : Proxy) :
  (∃ i r', get_info net (host r) (port r) = Decoded [i] ∧ getInfo net r = Ok r' ∧
           host r' = host r ∧ port r' = port r ∧ conn r' = conn r ∧
           eventHandler r' = eventHandler r) ∨
  ((∀ i, get_info net (host r) (port r) ≠ Decoded [i]) ∧ ∀ r', getInfo net r ≠ Ok r').
Proof.
  destruct (get_info net (host r) (port r)) as [| |infos] eqn:Hget.
  - right. unfold getInfo. rewrite Hget. split; done.
  - right. unfold getInfo. rewrite Hget. split; done.
  - destruct infos as [|i [|j infos]].
    + right. rewrite (getInfo_empty net r Hget). split; done.
    + left. destruct (getInfo_one net r i Hget) as (r' & Hr' & _ & Hh & Hp & Hc & He).
      exists i, r'. done.
    + right. rewrite (getInfo_many net r _ Hget) by (simpl; lia). split; done.
Qed.

(** X12: [New] fetches the info once and dials at most once, the dial going
    to the host and port of the fetch; it dials exactly when the info holds
    one descriptor, and it starts the receive loop exactly when it returns
    a proxy, on the connection that proxy holds. *)
Theorem New_contacts (opts : list (Proxy → Proxy)) :
  let r0 := configured opts in
  gets (New net opts).2 = [(host r0, port r0)] ∧
  (dials (New net opts).2 = [] ∨ dials (New net opts).2 = [(host r0, port r0)]) ∧
  (dialed (New net opts).2 = true ↔ ∃ i, get_info net (host r0) (port r0) = Decoded [i]) ∧
  (∀ c, c ∈ receivers (New net opts).2
        ↔ ∃ r, (New net opts).1 = Ok r ∧ conn r = Some c).
Proof.
  intros r0. unfold New. fold (configured opts). fold r0.
  destruct (getInfo_cases r0) as [(i & r' & Hget & -> & Hh & Hp & _)|[Hget Hno]].
  - rewrite Hh, Hp. destruct (ws_dial net (host r0) (port r0)) as [c|]; simpl.
    + split_and!; [done|by right| |].
      * split; eauto.
      * intros c'. split.
        -- intros ->%list_elem_of_singleton. eauto.
        -- intros (r & [= <-] & [= ->]). set_solver.
    + split_and!; [done|by right| |].
      * split; eauto.
      * intros c'. split; [set_solver|]. by intros (r & [=] & _).
  - destruct (getInfo net r0) as [r'|e|p] eqn:Hr; [by destruct (Hno r')| |]; simpl.
    + split_and!; [done|by left| |].
      * split; [done|]. intros [i Hi]. by destruct (Hget i).
      * intros c'. split; [set_solver|]. by intros (r & [=] & _).
    + split_and!; [done|by left| |].
      * split; [done|]. intros [i Hi]. by destruct (Hget i).
      * intros c'. split; [set_solver|]. by intros (r & [=] & _).
Qed.

(** X13: [New] returns a proxy exactly when the info holds one descriptor and
    the dial succeeds; that proxy holds the dialled connection and the
    host, port and handler the options configured. *)
Theorem New_succeeds_iff (opts : list (Proxy → Proxy)) :
  let r0 := configured opts in
  ((∃ r, (New net opts).1 = Ok r)
   ↔ (∃ i, get_info net (host r0) (port r0) = Decoded [i]) ∧
     is_Some (ws_dial net (host r0) (port r0))) ∧
  (∀ r, (New net opts).1 = Ok r →
        conn r = ws_dial net (host r0) (port r0) ∧
        host r = host r0 ∧ port r = port r0 ∧ eventHandler r = eventHandler r0).
Proof.
  intros r0. unfold New. fold (configured opts). fold r0.
  destruct (getInfo_cases r0) as [(i & r' & Hget & -> & Hh & Hp & Hc & He)|[Hget Hno]].
  - rewrite Hh, Hp. destruct (ws_dial net (host r0) (port r0)) as [c|]; simpl.
    + split.
      * split; eauto.
      * intros r [= <-]. simpl. done.
    + split.
      * split; [by intros (r & [=])|]. by intros [_ [? ?]].
      * by intros r [=].
  - destruct (getInfo net r0) as [r'|e|p] eqn:Hr; [by destruct (Hno r')| |]; simpl.
    + split.
      * split; [by intros (r & [=])|]. intros [[i Hi] _]. by destruct (Hget i).
      * by intros r [=].
    + split.
      * split; [by intros (r & [=])|]. intros [[i Hi] _]. by destruct (Hget i).
      * by intros r [=].
Qed.



(** *** The receive loop *)

Lemma on_event_cases (r : Proxy) (data : hub.Event.t) :
  on_event r data
  = if decide (is_heading data) then on_heading r (hub.Event.Status data) else (r, []).
Proof.
  unfold on_event, is_heading.
  destruct (decide (hub.Event.Name data = "heading")) as [Hh|Hn].
  - rewrite Hh. reflexivity.
  - repeat case_decide; done.
Qed.

Lemma receive_app (f1 f2 : list hub.Event.t) (r : Proxy) :
  receive (f1 ++ f2) r
  = ((receive f2 (receive f1 r).1).1, (receive f1 r).2 ++ (receive f2 (receive f1 r).1).2).
Proof.
  revert r. induction f1 as [|data f1 IH]; intros r.
  - simpl. by destruct (receive f2 r).
  - simpl. destruct (on_event r data) as [r1 c1]. rewrite IH.
    destruct (receive f1 r1) as [r2 c2]. simpl.
    destruct (receive f2 r2) as [r3 c3]. simpl. by rewrite app_assoc.
Qed.

(** X15: frames that are not ["heading"] events (["add"], ["remove"], the
    zero event of a frame that is no JSON, any other name) are without
    effect: dropping them from the stream changes neither the proxy nor
    the handler calls. *)
Theorem receive_only_headings (frames : list hub.Event.t) (r : Proxy) :
  receive frames r = receive (filter is_heading frames) r.
Proof.
  revert r. induction frames as [|data frames IH]; intros r; [done|].
  rewrite filter_cons. simpl. rewrite on_event_cases.
  destruct (decide (is_heading data)) as [Hh|Hn].
  - simpl. rewrite on_event_cases, decide_True by done.
    destruct (on_heading r _) as [r1 c1]. by rewrite IH.
  - rewrite IH. by destruct (receive _ r).
Qed.

Lemma on_heading_heading_of (r : Proxy) (s : rotator.Status.t) :
  heading_of (on_heading r s).1 = heading_in s ∧
  static (on_heading r s).1 = static r.
Proof. rewrite on_heading_fields. by destruct r. Qed.

(** X16: after any stream of frames the cached heading is that of the last
    ["heading"] event, or the one the proxy had when there was none. *)
Theorem receive_mirrors_last (frames : list hub.Event.t) (r : Proxy) :
  heading_of (receive frames r).1
  = match last_heading frames with
    | Some s => heading_in s
    | None => heading_of r
    end.
Proof.
  revert r. induction frames as [|data frames IH]; intros r; [done|].
  simpl. destruct (on_event r data) as [r1 c1] eqn:Hev.
  specialize (IH r1). destruct (receive frames r1) as [r2 c2]. simpl in *.
  rewrite IH. unfold last_heading. rewrite filter_cons.
  rewrite on_event_cases in Hev.
  destruct (decide (is_heading data)) as [Hh|Hn].
  - rewrite fmap_cons.
    destruct (hub.Event.Status <$> filter is_heading frames) as [|s' l] eqn:Hl.
    + simpl. apply (f_equal fst) in Hev. simpl in Hev. subst r1.
      apply on_heading_heading_of.
    + rewrite !last_cons. by destruct (last l).
  - injection Hev as <- _. done.
Qed.

Lemma receive_static (frames : list hub.Event.t) (r : Proxy) :
  static (receive frames r).1 = static r.
Proof.
  revert r. induction frames as [|data frames IH]; intros r; [done|].
  simpl. destruct (on_event r data) as [r1 c1] eqn:Hev.
  specialize (IH r1). destruct (receive frames r1) as [r2 c2]. simpl in *.
  rewrite IH. rewrite on_event_cases in Hev.
  destruct (decide (is_heading data)).
  - apply (f_equal fst) in Hev. simpl in Hev. subst r1. apply on_heading_heading_of.
  - by injection Hev as <- _.
Qed.

(** X17: no stream of frames changes what the proxy holds beside the
    heading: host, port, connection, handler, name, ranges, overlap flag
    and capabilities stay as they were (the name carried by an event is
    not taken over). *)
Theorem receive_keeps_static (frames : list hub.Event.t) (r : Proxy) :
  static (receive frames r).1 = static r.
Proof. apply receive_static. Qed.

(** X18: a ["heading"] event received twice in a row does nothing the second
    time: the proxy stays as the first one left it and no handler is
    started. *)
Theorem heading_replay (r : Proxy) (s : rotator.Status.t) :
  on_event (on_event r (heading s)).1 (heading s) = ((on_event r (heading s)).1, []).
Proof.
  rewrite !on_event_heading.
  set (r1 := (on_heading r s).1).
  destruct (on_heading_heading_of r s) as [Hh _]. fold r1 in Hh.
  unfold heading_of, heading_in in Hh. injection Hh as Haz Hazp Hel Help.
  apply injective_projections.
  - rewrite on_heading_fields. destruct r1. simpl in *. by subst.
  - rewrite on_heading_calls. simpl. rewrite !decide_False by (intros ?; done). done.
Qed.

Lemma on_heading_call_facts (r : Proxy) (s : rotator.Status.t) :
  (length (on_heading r s).2 ≤ 4)%nat ∧
  Forall (fun c => eventHandler r = Some (call_handler c) ∧ call_status c = s)
         (on_heading r s).2.
Proof.
  rewrite on_heading_calls. unfold notify.
  destruct (eventHandler r); repeat case_decide; simpl;
    (split; [lia|repeat constructor]).
Qed.

(** X19: every handler call of the receive loop goes to the registered
    handler and carries the status of a ["heading"] frame of the stream;
    there are at most four per such frame, and none without a handler. *)
Theorem receive_calls (frames : list hub.Event.t) (r : Proxy) :
  Forall (fun c => eventHandler r = Some (call_handler c) ∧
                   heading (call_status c) ∈ frames)
         (receive frames r).2 ∧
  (length (receive frames r).2 ≤ 4 * length (filter is_heading frames))%nat ∧
  (eventHandler r = None → (receive frames r).2 = []).
Proof.
  assert (Forall (fun c => eventHandler r = Some (call_handler c) ∧
                           heading (call_status c) ∈ frames) (receive frames r).2 ∧
          (length (receive frames r).2 ≤ 4 * length (filter is_heading frames))%nat) as [H1 H2].
  { revert r. induction frames as [|data frames IH]; intros r.
    - simpl. split; [constructor|lia].
    - simpl. destruct (on_event r data) as [r1 c1] eqn:Hev.
      pose proof (receive_static [data] r) as Hst.
      simpl in Hst. rewrite Hev in Hst. simpl in Hst.
      assert (eventHandler r1 = eventHandler r) as He by (by injection Hst).
      destruct (IH r1) as [IH1 IH2]. destruct (receive frames r1) as [r2 c2]. simpl in *.
      rewrite filter_cons. rewrite on_event_cases in Hev.
      destruct (decide (is_heading data)) as [Hh|Hn].
      + destruct (on_heading_call_facts r (hub.Event.Status data)) as [Hlen Hall].
        rewrite Hev in Hlen, Hall. simpl in *.
        split.
        * apply Forall_app. split.
          -- eapply Forall_impl; [exact Hall|]. intros c [Hc ->]. split; [done|].
             destruct data as [n s]. unfold is_heading in Hh. simpl in *. subst n.
             unfold heading. set_solver.
          -- eapply Forall_impl; [exact IH1|]. intros c [Hc Hin].
             rewrite <- He. split; [done|]. set_solver.
        * rewrite length_app. lia.
      + injection Hev as <- <-. simpl. split; [|lia].
        eapply Forall_impl; [exact IH1|]. intros c [Hc Hin]. split; [done|]. set_solver. }
  split_and!; [done|done|].
  intros Hnone. destruct (receive frames r).2 as [|c l]; [done|].
  apply Forall_cons in H1 as [[Hc _] _]. congruence.
Qed.

(** *** Commands *)

Lemma run_spec (cmd : command) (w : world) (c : nat) :
  conn (self w) = Some c →
  let failed := write_json_fails net (wire w) c (JRequest (request_of cmd)) in
  run net cmd w
  = (if failed then Err ErrWrite else Ok tt,
     mkWorld (self w) (wire w ++ [WriteJSON c (JRequest (request_of cmd)) failed])).
Proof.
  intros Hc. destruct cmd; simpl;
    unfold SetAzimuth, SetElevation, StopAzimuth, StopElevation, Stop, ExecuteRequest,
      conn_WriteJSON; by rewrite Hc.
Qed.

(** X20: a sequence of commands on an open connection writes one request per
    command, in the order of the commands and each on that connection,
    whatever writes fail on the way; a command returns an error exactly
    when its own write failed, and the proxy is never changed. *)
Theorem commands_in_order (cmds : list command) (w : world) (c : nat) :
  conn (self w) = Some c →
  let out := run_all net cmds w in
  self out.2 = self w ∧
  ∃ sent, wire out.2 = wire w ++ sent ∧
          (writes sent).*1 = (fun cmd => (c, JRequest (request_of cmd))) <$> cmds ∧
          out.1 = (fun x : nat * payload * bool =>
                     if x.2 then Err ErrWrite else Ok tt) <$> writes sent ∧
          length sent = length cmds.
Proof.
  revert w. induction cmds as [|cmd cmds IH]; intros w Hc out; subst out.
  - simpl. split; [done|]. exists []. by rewrite app_nil_r.
  - simpl. rewrite (run_spec cmd w c Hc).
    set (failed := write_json_fails net (wire w) c (JRequest (request_of cmd))).
    set (w1 := mkWorld (self w) _).
    destruct (IH w1 Hc) as (Hself & sent & Hwire & Hsent & Hres & Hlen).
    destruct (run_all net cmds w1) as [ress w2]. simpl in *.
    split; [done|].
    exists (WriteJSON c (JRequest (request_of cmd)) failed :: sent).
    change (writes (WriteJSON c (JRequest (request_of cmd)) failed :: sent))
      with ((c, JRequest (request_of cmd), failed) :: writes sent).
    rewrite !fmap_cons, Hsent, Hres, Hwire, <- app_assoc. simpl.
    split_and!; try done. by rewrite Hlen.
Qed.

End proxy_more.

(** *** Instances *)

Lemma add_remove_round_trip_witness :
  hub.clients hub.TCP
    (hub.exec (hub.bind (AddClient (hub.TCP, 9%positive))
                 (fun _ => traces.RemoveClient (hub.TCP, 9%positive)))
       sample.switchboard)
  = hub.clients hub.TCP sample.switchboard.
Proof.
  apply (add_remove_round_trip hub.TCP 9%positive sample.switchboard).
  reflexivity.
Defined.

Lemma broadcasts_in_order_witness :
  hub.received hub.TCP 1%positive
    (hub.since sample.switchboard
       (hub.exec (hub.broadcasts sample.runtime sample.statuses) sample.switchboard))
  = concat (map (traces.pushed sample.runtime hub.TCP) sample.statuses) ∧
  is_Some (hub.clients hub.TCP
             (hub.exec (hub.broadcasts sample.runtime sample.statuses) sample.switchboard)
           !! 1%positive) ∧
  hub.trace (hub.exec (hub.broadcasts sample.runtime sample.statuses) sample.switchboard)
  = hub.trace sample.switchboard ++
    hub.since sample.switchboard
      (hub.exec (hub.broadcasts sample.runtime sample.statuses) sample.switchboard).
Proof.
  apply (broadcasts_in_order sample.runtime sample.statuses hub.TCP 1%positive).
  - intros tr l. reflexivity.
  - intros tr data. reflexivity.
  - exists true. reflexivity.
Defined.

Lemma Broadcast_marshal_error_witness :
  (hub.BroadcastToWsClients sample.mute (sample.status 5 0 120 0)
     (hub.exec (hub.BroadcastToTCPClients sample.mute (sample.status 5 0 120 0))
        sample.switchboard)).1 = true ∧
  hub.written hub.TCP
    (hub.since sample.switchboard
       (hub.exec (hub.Broadcast sample.mute (sample.status 5 0 120 0)) sample.switchboard))
    ≡ₚ hub.keys (hub.tcpClients sample.switchboard) ∧
  hub.written hub.WS
    (hub.since sample.switchboard
       (hub.exec (hub.Broadcast sample.mute (sample.status 5 0 120 0)) sample.switchboard))
  = [] ∧
  hub.closed hub.WS
    (hub.since sample.switchboard
       (hub.exec (hub.Broadcast sample.mute (sample.status 5 0 120 0)) sample.switchboard))
  = [] ∧
  hub.wsClients
    (hub.exec (hub.Broadcast sample.mute (sample.status 5 0 120 0)) sample.switchboard)
  = hub.wsClients sample.switchboard ∧
  hub.ALog hub.LogMarshalError
    ∈ hub.since sample.switchboard
        (hub.exec (hub.Broadcast sample.mute (sample.status 5 0 120 0)) sample.switchboard).
Proof.
  apply (Broadcast_marshal_error sample.mute (sample.status 5 0 120 0) sample.switchboard).
  - intros tr l. reflexivity.
  - reflexivity.
Defined.

Lemma ListenTCP_serving_witness :
  (hub.ListenTCP true sample.accepted sample.switchboard).1 = hub.Serving ∧
  hub.wsClients (hub.exec (hub.ListenTCP true sample.accepted) sample.switchboard)
  = hub.wsClients sample.switchboard ∧
  traces.occurrences (hub.ALog hub.LogAcceptError)
    (hub.since sample.switchboard
       (hub.exec (hub.ListenTCP true sample.accepted) sample.switchboard)) = 0%nat.
Proof.
  destruct (ListenTCP_serving sample.accepted sample.switchboard)
    as (Hexit & _ & Hws & _ & _ & Hocc).
  - repeat constructor.
  - split; [exact Hexit|]. split; [exact Hws|exact Hocc].
Defined.

Lemma tcp_data_injective_witness :
  String.length (hub.tcp_data (sample.status 5 0 120 0)) = 12%nat ∧
  (hub.tcp_data (sample.status 5 0 120 0) = hub.tcp_data (sample.status 5 9 120 9) →
   rotator.Status.Azimuth (sample.status 5 0 120 0)
   = rotator.Status.Azimuth (sample.status 5 9 120 9) ∧
   rotator.Status.Elevation (sample.status 5 0 120 0)
   = rotator.Status.Elevation (sample.status 5 9 120 9)).
Proof.
  apply (tcp_data_injective (sample.status 5 0 120 0) (sample.status 5 9 120 9));
    simpl; lia.
Defined.

Lemma commands_in_order_witness :
  proxy.self
    (streams.run_all (sample.server [sample.info]) sample.commands
       (proxy.mkWorld sample.mirror [])).2
  = sample.mirror ∧
  length
    (proxy.wire
       (streams.run_all (sample.server [sample.info]) sample.commands
          (proxy.mkWorld sample.mirror [])).2)
  = 2%nat.
Proof.
  destruct (commands_in_order (sample.server [sample.info]) sample.commands
              (proxy.mkWorld sample.mirror []) 7%nat)
    as (Hself & sent & Hwire & _ & _ & Hlen).
  - reflexivity.
  - split; [exact Hself|]. rewrite Hwire. simpl. exact Hlen.
Defined.
